(** * Solid squared games: the cell and grid helpers of the game engine

    A shallow embedding of [src/helpers/App.helpers.tsx] and of the schemas
    of [src/App.Types.tsx], with the properties of the engine's
    specification stated and settled against it.

    The helpers are TypeScript functions over JavaScript arrays.  Three
    features of the runtime decide most of the properties below and are
    kept in the model:
    - arrays are sparse: [new Array(n)] has length [n] and no element, and
      [map] does not call its callback on a missing element;
    - reading a missing element gives [undefined], and reading or writing
      an element of [undefined] raises [TypeError];
    - the rows of a game field are objects: the field holds references to
      them, and [setCellAt] updates a row in place. *)

From Stdlib Require Import ZArith QArith Qround.
From stdpp Require Import gmap strings list fin_maps.

Local Open Scope Z_scope.

(** ** JavaScript arrays *)

(** An array object: its [length] and its integer-keyed own properties.  A
    key in [0, length) with no entry is a hole. *)
Record JsArray (A : Type) : Type := mkArray {
  arr_length : Z;
  arr_elems : gmap Z A
}.
Arguments mkArray {A} _ _.
Arguments arr_length {A} _.
Arguments arr_elems {A} _.

(** [2^32]: lengths lie below it, array indices below [2^32 - 1]. *)
Definition two32 : Z := 4294967296.

Definition is_array_index (k : Z) : bool :=
  (0 <=? k) && (k <? two32 - 1).

(** [a[k]]: the element, or [undefined] ([None]). *)
Definition arr_get {A} (a : JsArray A) (k : Z) : option A :=
  arr_elems a !! k.

(** [a[k] = v]: the property is set; an array index at or beyond the length
    extends the array. *)
Definition arr_set {A} (a : JsArray A) (k : Z) (v : A) : JsArray A :=
  mkArray
    (if is_array_index k && (arr_length a <=? k) then k + 1 else arr_length a)
    (<[k:=v]> (arr_elems a)).

(** [[...a.keys()]]: the indices [0 .. length-1], holes included. *)
Definition arr_keys {A} (a : JsArray A) : list Z :=
  seqZ 0 (arr_length a).

(** A dense array literal [[x0, x1, ...]]. *)
Definition arr_of_list {A} (l : list A) : JsArray A :=
  mkArray (Z.of_nat (length l)) (map_seqZ 0 l).

(** Every element sits at an index below the length. *)
Definition arr_wf {A} (a : JsArray A) : Prop :=
  ∀ k, is_Some (arr_elems a !! k) → 0 ≤ k < arr_length a.

(** ** Completions, the store and the monad of the helpers *)

Inductive JsError : Type :=
  | TypeError
  | RangeError.

(** The outcome of a call: a value, or an exception. *)
Inductive completion (A : Type) : Type :=
  | Normal (a : A)
  | Throw (e : JsError).
Arguments Normal {A} _.
Arguments Throw {A} _.

Definition fails {A} (r : completion A) : Prop :=
  ∃ e, r = Throw e.

(** ** The types of [App.Types.tsx] *)

Abbreviation RowColIndex := Z (only parsing).
Abbreviation CellCoordinate := (Z * Z)%type (only parsing).
Abbreviation CoordinateCollection := (list (Z * Z)) (only parsing).

(** [enum Coordinate { Row = 0, Column = 1 }] *)
Inductive Coordinate : Type :=
  | Row
  | Column.

Definition coord (c : CellCoordinate) (i : Coordinate) : RowColIndex :=
  match i with
  | Row => c.1
  | Column => c.2
  end.

(** [CellContent = string | number].  Finite numbers are rationals; [NaN],
    which [z.number()] rejects, and the infinities are left out. *)
Inductive CellContent : Type :=
  | CStr (s : string)
  | CNum (q : Q).

Abbreviation CellPossibilities := (list CellContent) (only parsing).
Abbreviation CellFixed := bool (only parsing).

(** [Cell = [CellPossibilities, CellFixed, CellCoordinate]], read through
    [enum GameCell { Possibilities = 0, isFixed = 1, Coordinates = 2 }]. *)
Record Cell : Type := mkCell {
  Possibilities : CellPossibilities;
  isFixed : CellFixed;
  Coordinates : CellCoordinate
}.

Record GameSettings : Type := mkGameSettings {
  NAME : string;
  CELLRESULTS : CellPossibilities;
  MAXROW : RowColIndex;
  MAXCOL : RowColIndex
}.

(** What the helpers write to the console. *)
Inductive ConsoleEntry : Type :=
  | LogPlacingCell (cell : Cell)
  | LogCoordinate (row col : RowColIndex)
  | ErrorSeveralPossibilities.

(** Row arrays live in the heap; a game field is the array of the
    references to its rows. *)
Abbreviation loc := positive (only parsing).
Abbreviation GameRow := (JsArray Cell) (only parsing).
Abbreviation GameField := (JsArray positive) (only parsing).

Record Store : Type := mkStore {
  heap : gmap loc GameRow;
  console : list ConsoleEntry
}.

Definition JS (A : Type) : Type := Store → completion A * Store.

Definition js_ret {A} (a : A) : JS A := λ σ, (Normal a, σ).

Definition js_bind {A B} (m : JS A) (k : A → JS B) : JS B :=
  λ σ, match m σ with
       | (Normal a, σ') => k a σ'
       | (Throw e, σ') => (Throw e, σ')
       end.

Definition js_throw {A} (e : JsError) : JS A := λ σ, (Throw e, σ).

Notation "x <- m ;; k" := (js_bind m (λ x, k))
  (at level 100, m at next level, right associativity).
Notation "m ;;; k" := (js_bind m (λ _, k))
  (at level 100, right associativity).

(** A completion of an expression inside a function body. *)
Definition js_lift {A} (r : completion A) : JS A := λ σ, (r, σ).

(** Property access on a value that may be [undefined]. *)
Definition to_object {A} (o : option A) : JS A :=
  match o with
  | Some a => js_ret a
  | None => js_throw TypeError
  end.

(** The row a reference denotes.  A reference always denotes a live object:
    the second case does not arise in a store that holds the rows of the
    field. *)
Definition deref (l : loc) : JS GameRow :=
  λ σ, match heap σ !! l with
       | Some row => (Normal row, σ)
       | None => (Throw TypeError, σ)
       end.

Definition alloc (row : GameRow) : JS loc :=
  λ σ, let l := fresh (dom (heap σ)) in
       (Normal l, mkStore (<[l:=row]> (heap σ)) (console σ)).

Definition store_elem (l : loc) (k : Z) (cell : Cell) : JS unit :=
  row <- deref l ;;
  λ σ, (Normal tt, mkStore (<[l:=arr_set row k cell]> (heap σ)) (console σ)).

Definition console_write (e : ConsoleEntry) : JS unit :=
  λ σ, (Normal tt, mkStore (heap σ) (console σ ++ [e])).

(** [new Array(n)] / [Array(n)]: [n] holes, or [RangeError] when [n] is not
    a length. *)
Definition new_Array {A} (n : Z) : completion (JsArray A) :=
  if (0 <=? n) && (n <? two32) then Normal (mkArray n ∅) else Throw RangeError.

(** [Array.prototype.map]: the callback runs on the elements that exist, in
    ascending index order; the result has the same length and the same
    holes. *)
Fixpoint map_loop {A B} (f : A → Z → JS B) (a : JsArray A) (ks : list Z)
    (acc : gmap Z B) : JS (gmap Z B) :=
  match ks with
  | [] => js_ret acc
  | k :: ks' =>
      match arr_elems a !! k with
      | None => map_loop f a ks' acc
      | Some x => y <- f x k ;; map_loop f a ks' (<[k:=y]> acc)
      end
  end.

Definition arr_map {A B} (f : A → Z → JS B) (a : JsArray A) : JS (JsArray B) :=
  elems <- map_loop f a (arr_keys a) ∅ ;;
  js_ret (mkArray (arr_length a) elems).

(** [forEach] on a dense array. *)
Fixpoint forEach {A} (f : A → JS unit) (l : list A) : JS unit :=
  match l with
  | [] => js_ret tt
  | x :: l' => f x ;;; forEach f l'
  end.

(** ** The schemas of [App.Types.tsx]

    [zod] validators over the type each one infers. *)

Module Schema.

(** [z.number().max(hi).positive()] *)
Definition z_number_max_positive (hi : Z) (n : Z) : bool :=
  (n <=? hi) && (0 <? n).

(** [z.string().length(n)] within [string | number] *)
Definition z_string_length (n : nat) (v : CellContent) : bool :=
  match v with
  | CStr s => Nat.eqb (String.length s) n
  | CNum _ => false
  end.

(** [z.number().max(hi)] within [string | number] *)
Definition z_number_max (hi : Q) (v : CellContent) : bool :=
  match v with
  | CStr _ => false
  | CNum q => Qle_bool q hi
  end.

(** [z.union([...])] *)
Definition z_union {A} (options : list (A → bool)) (v : A) : bool :=
  existsb (λ schema, schema v) options.

(** [z.array(item).length(n)]: exactly [n] elements. *)
Definition z_array_length {A} (item : A → bool) (n : nat) (l : list A) : bool :=
  forallb item l && Nat.eqb (length l) n.


Definition rowcolIndexSchema : RowColIndex → bool :=
  z_number_max_positive 50.

Definition CellCoordinateSchema (c : CellCoordinate) : bool :=
  rowcolIndexSchema c.1 && rowcolIndexSchema c.2.

Definition CellContentSchema : CellContent → bool :=
  z_union [z_string_length 1; z_number_max 9].

Definition CellPossibilitiesSchema : CellPossibilities → bool :=
  z_array_length CellContentSchema 10.



End Schema.

(** ** The helpers of [helpers/App.helpers.tsx] *)

(** [collection.map((c) => c[Coordinate.Column])], then
    [every((val, i, arr) => val === arr[0])]. *)
Definition isColumnCollection (collection : CoordinateCollection) : bool :=
  let columnCoordinates := map (λ c, coord c Column) collection in
  forallb (λ val, bool_decide (Some val = columnCoordinates !! 0%nat))
    columnCoordinates.

Definition isRowCollection (collection : CoordinateCollection) : bool :=
  let rowCoordinates := map (λ c, coord c Row) collection in
  forallb (λ val, bool_decide (Some val = rowCoordinates !! 0%nat))
    rowCoordinates.

(** [[...Array(maxRow).keys()].map((itm) => [r, itm])] *)
Definition rowCollection (r : Z) (maxRow : RowColIndex)
    : completion CoordinateCollection :=
  match new_Array (A:=unit) maxRow with
  | Normal a => Normal (map (λ itm, (r, itm)) (arr_keys a))
  | Throw e => Throw e
  end.

(** [[...Array(maxCol).keys()].map((itm) => [itm, c])] *)
Definition colCollection (c : Z) (maxCol : RowColIndex)
    : completion CoordinateCollection :=
  match new_Array (A:=unit) maxCol with
  | Normal a => Normal (map (λ itm, (itm, c)) (arr_keys a))
  | Throw e => Throw e
  end.

Definition cellIsFound (cell : Cell) : bool :=
  Nat.eqb (length (Possibilities cell)) 1.

Definition cellCanNotBeChanged (cell : Cell) : bool :=
  isFixed cell.

(** [g[c[Coordinate.Row]][c[Coordinate.Column]]] *)
Definition cellAt (c : CellCoordinate) (g : GameField) : JS (option Cell) :=
  l <- to_object (arr_get g (coord c Row)) ;;
  row <- deref l ;;
  js_ret (arr_get row (coord c Column)).

(** [g[c[Coordinate.Row]][c[Coordinate.Column]] = cell] *)
Definition setCellAt (c : CellCoordinate) (g : GameField) (cell : Cell)
    : JS unit :=
  l <- to_object (arr_get g (coord c Row)) ;;
  store_elem l (coord c Column) cell.

(** [return [initialContent, isFixed, c]] *)
Definition createCell (initialContent : CellPossibilities) (isFixed : CellFixed)
    (c : CellCoordinate) : JS Cell :=
  js_ret (mkCell initialContent isFixed c).

Fixpoint js_map {A B} (f : A → JS B) (l : list A) : JS (list B) :=
  match l with
  | [] => js_ret []
  | x :: l' => y <- f x ;; ys <- js_map f l' ;; js_ret (y :: ys)
  end.

(** [cellIsFound] of a value read from the field: [undefined] has no
    element [0]. *)
Definition isCoordinateCollectionAllFound (cc : CoordinateCollection)
    (game : GameField) : JS bool :=
  flags <- js_map (λ coordinate,
             o <- cellAt coordinate game ;;
             cell <- to_object o ;;
             js_ret (cellIsFound cell)) cc ;;
  js_ret (forallb id flags).

(** The callbacks of [initializeGame], named after their index parameters:
    the outer one receives [colIndex], the inner one [rowIndex]. *)
Definition initCell (settings : GameSettings) (colIndex : Z)
    (col : unit) (rowIndex : Z) : JS Cell :=
  createCell (CELLRESULTS settings) false (rowIndex, colIndex).

Definition initRow (settings : GameSettings) (row : unit) (colIndex : Z)
    : JS loc :=
  colCoords <- js_lift (new_Array (MAXCOL settings)) ;;
  cells <- arr_map (initCell settings colIndex) colCoords ;;
  alloc cells.

(** The callback of [content.forEach]. *)
Definition placeCell (g : GameField) (cell : Cell) : JS unit :=
  console_write (LogPlacingCell cell) ;;;
  let coordinate := Coordinates cell in
  if cellIsFound cell then
    console_write (LogCoordinate (coord coordinate Row) (coord coordinate Column)) ;;;
    setCellAt coordinate g cell
  else
    console_write ErrorSeveralPossibilities.

Definition initializeGame (content : list Cell) (settings : GameSettings)
    : JS GameField :=
  rows <- js_lift (new_Array (MAXROW settings)) ;;
  g <- arr_map (initRow settings) rows ;;
  forEach (placeCell g) content ;;;
  js_ret g.

(** ** [Binario.tsx] *)

Definition binarioGameSettings : GameSettings :=
  mkGameSettings "Binario" [CNum 0; CNum 1] 12 12.

(** The cells [createCell(['1'], true, [r, c])] of the example. *)
Definition binarioExample : list Cell :=
  map (λ c, mkCell [CStr "1"] true c)
    [(0, 0); (3, 0); (4, 0); (1, 4); (1, 10); (2, 0);
     (2, 1); (3, 0); (3, 11); (4, 2); (5, 0); (5, 2)].

(** The store before the application starts. *)
Definition empty_store : Store := mkStore ∅ [].


(** ** The helpers that [App.Types.tsx] still carries

    [App.Types.tsx] holds an earlier version of the helpers.  Its
    collections count from 1 and take their length from the constant
    [MAXROW] of the Binario module, here a parameter; its [initializeGame]
    builds the cells itself, from [Array(content)], and places them in a
    field it is given. *)

Module AppTypes.

(** [[...Array(MAXROW).keys()].map((itm) => [r, itm + 1])] *)
Definition rowCollection (MAXROW : RowColIndex) (r : Z)
    : completion CoordinateCollection :=
  match new_Array (A:=unit) MAXROW with
  | Normal a => Normal (map (λ itm, (r, itm + 1)) (arr_keys a))
  | Throw e => Throw e
  end.

(** [[...Array(MAXROW).keys()].map((itm) => [itm + 1, c])] *)
Definition colCollection (MAXROW : RowColIndex) (c : Z)
    : completion CoordinateCollection :=
  match new_Array (A:=unit) MAXROW with
  | Normal a => Normal (map (λ itm, (itm + 1, c)) (arr_keys a))
  | Throw e => Throw e
  end.

(** A cell whose possibilities are the array [Array(content)], which may
    have holes. *)
Record Cell : Type := mkCell {
  Possibilities : JsArray CellContent;
  isFixed : CellFixed;
  Coordinates : CellCoordinate
}.

Inductive ConsoleEntry : Type :=
  | LogPlacingCell (newCell : Cell)
  | LogCoordinate (row col : RowColIndex)
  | ErrorSeveralPossibilities.

Record Store : Type := mkStore {
  heap : gmap positive (JsArray Cell);
  console : list ConsoleEntry
}.

Definition console_write (e : ConsoleEntry) (σ : Store) : Store :=
  mkStore (heap σ) (console σ ++ [e]).

(** The integer a number is, if it is one. *)
Definition integer_value (q : Q) : option Z :=
  if Qeq_bool q (inject_Z (Qfloor q)) then Some (Qfloor q) else None.

(** [Array(content)]: called with one number it makes an array of that
    length, without elements, or raises [RangeError] when the number is not
    a length; called with a string it makes the array of that one
    element. *)
Definition Array_of (content : CellContent)
    : completion (JsArray CellContent) :=
  match content with
  | CStr s => Normal (arr_of_list [CStr s])
  | CNum q =>
      match integer_value q with
      | Some n => new_Array n
      | None => Throw RangeError
      end
  end.

Definition cellIsFound (cell : Cell) : bool :=
  arr_length (Possibilities cell) =? 1.

Definition cellCanNotBeChanged (cell : Cell) : bool :=
  isFixed cell.

Definition cellAt (c : CellCoordinate) (g : GameField) (σ : Store)
    : completion (option Cell) :=
  match arr_get g (coord c Row) with
  | None => Throw TypeError
  | Some l =>
      match heap σ !! l with
      | Some row => Normal (arr_get row (coord c Column))
      | None => Throw TypeError
      end
  end.

Definition setCellAt (c : CellCoordinate) (g : GameField) (cell : Cell)
    (σ : Store) : completion unit * Store :=
  match arr_get g (coord c Row) with
  | None => (Throw TypeError, σ)
  | Some l =>
      match heap σ !! l with
      | Some row =>
          (Normal tt,
           mkStore (<[l:=arr_set row (coord c Column) cell]> (heap σ))
             (console σ))
      | None => (Throw TypeError, σ)
      end
  end.

Definition createCell (initialContent : JsArray CellContent)
    (isFixed : CellFixed) (c : CellCoordinate) : Cell :=
  mkCell initialContent isFixed c.

(** The callback of [cc.forEach]. *)
Definition placeNewCell (content : CellContent) (g : GameField)
    (coordinate : CellCoordinate) (σ : Store) : completion unit * Store :=
  match Array_of content with
  | Throw e => (Throw e, σ)
  | Normal possibilities =>
      let newCell := createCell possibilities true coordinate in
      let σ1 := console_write (LogPlacingCell newCell) σ in
      if cellIsFound newCell then
        setCellAt coordinate g newCell
          (console_write
             (LogCoordinate (coord coordinate Row) (coord coordinate Column))
             σ1)
      else
        (Normal tt, console_write ErrorSeveralPossibilities σ1)
  end.

Fixpoint initializeGame (content : CellContent) (cc : CoordinateCollection)
    (g : GameField) (σ : Store) : completion unit * Store :=
  match cc with
  | [] => (Normal tt, σ)
  | coordinate :: cc' =>
      match placeNewCell content g coordinate σ with
      | (Normal _, σ') => initializeGame content cc' g σ'
      | (Throw e, σ') => (Throw e, σ')
      end
  end.

(** The row array stored at row index [r], if there is one. *)
Definition row_at (σ : Store) (g : GameField) (r : Z) : option (JsArray Cell) :=
  match arr_elems g !! r with
  | Some l => heap σ !! l
  | None => None
  end.

End AppTypes.

(** ** Fields, bounds and the stated invariants *)

(** The row array stored at row index [r], if there is one. *)
Definition row_at (σ : Store) (g : GameField) (r : Z) : option GameRow :=
  match arr_elems g !! r with
  | Some l => heap σ !! l
  | None => None
  end.

(** Every row index below the length of the field holds a row array. *)
Definition rows_exist (σ : Store) (g : GameField) : Prop :=
  ∀ r, 0 ≤ r < arr_length g → is_Some (row_at σ g r).

(** No row array is stored at two row indices. *)
Definition rows_distinct (g : GameField) : Prop :=
  ∀ r r' l, 0 ≤ r < arr_length g → 0 ≤ r' < arr_length g →
    arr_elems g !! r = Some l → arr_elems g !! r' = Some l → r = r'.

(** [c] lies within the field and within its row. *)
Definition in_bounds (σ : Store) (g : GameField) (c : CellCoordinate) : Prop :=
  0 ≤ c.1 < arr_length g
  ∧ ∃ row, row_at σ g c.1 = Some row ∧ 0 ≤ c.2 < arr_length row.

(** A [maxRow x maxCol] field: [maxRow] rows of [maxCol] cells each, and no
    element outside these ranges. *)
Definition rectangular (σ : Store) (g : GameField) (maxRow maxCol : Z) : Prop :=
  arr_length g = maxRow
  ∧ arr_wf g
  ∧ ∀ r, 0 ≤ r < maxRow →
      ∃ row, row_at σ g r = Some row
        ∧ arr_length row = maxCol
        ∧ arr_wf row
        ∧ ∀ c, 0 ≤ c < maxCol → is_Some (arr_elems row !! c).

(** What the specification expects of a fresh field. *)
Definition full_domain_grid (settings : GameSettings) (σ : Store)
    (g : GameField) : Prop :=
  ∀ r c, 0 ≤ r < MAXROW settings → 0 ≤ c < MAXCOL settings →
    ∃ cell, (cellAt (r, c) g σ).1 = Normal (Some cell)
      ∧ Possibilities cell = CELLRESULTS settings
      ∧ isFixed cell = false.


(** [grid[r][c].coordinate == (r, c)] at every position of a
    [maxRow x maxCol] field. *)
Definition coordinate_invariant (maxRow maxCol : Z) (σ : Store)
    (g : GameField) : Prop :=
  ∀ r c, 0 ≤ r < maxRow → 0 ≤ c < maxCol →
    ∃ cell, (cellAt (r, c) g σ).1 = Normal (Some cell)
      ∧ Coordinates cell = (r, c).

(** The inputs for which the specification expects [createCell] to fail. *)
Definition invalid_cell_input (possibilities : CellPossibilities)
    (fixed : CellFixed) : Prop :=
  (fixed = true ∧ length possibilities ≠ 1%nat) ∨ ¬ NoDup possibilities.

(** The numbers the specification admits as cell content: the integers
    [0 .. 9]. *)
Definition small_nonneg_integer (q : Q) : Prop :=
  ∃ n : Z, 0 ≤ n ≤ 9 ∧ Qeq q (inject_Z n).

(** Two stores with the same heap: they differ in the console at most. *)
Definition same_heap (σ1 σ2 : Store) : Prop :=
  heap σ1 = heap σ2.

(** The cell stored at [c], if the row exists and holds one there. *)
Definition stored_cell (σ : Store) (g : GameField) (c : CellCoordinate)
    : option Cell :=
  match row_at σ g c.1 with
  | Some row => arr_elems row !! c.2
  | None => None
  end.

(** What [initializeGame] writes to the console for [content] when the field
    has no row: two entries per cell, up to and including the first found
    cell, at which the call raises. *)
Fixpoint console_trace (content : list Cell) : list ConsoleEntry :=
  match content with
  | [] => []
  | cell :: rest =>
      if cellIsFound cell then
        [LogPlacingCell cell;
         LogCoordinate (Coordinates cell).1 (Coordinates cell).2]
      else
        LogPlacingCell cell :: ErrorSeveralPossibilities :: console_trace rest
  end.

(** The last found cell of [content] that carries the coordinate [c]. *)
Definition last_placed (content : list Cell) (c : CellCoordinate)
    : option Cell :=
  last (List.filter
          (λ cell, cellIsFound cell && bool_decide (Coordinates cell = c))
          content).

(** *** Sample fields *)

Definition fixed_one (c : CellCoordinate) : Cell :=
  mkCell [CStr "1"] true c.

Definition open_cell (c : CellCoordinate) : Cell :=
  mkCell [CNum 0; CNum 1] false c.

(** [[[fixed_one (0,0)]]]: one row, one cell. *)
Definition field_1x1 : GameField := arr_of_list [1%positive].
Definition store_1x1 : Store :=
  mkStore {[ 1%positive := arr_of_list [fixed_one (0, 0)] ]} [].

(** A 2 x 2 field with a row array per row. *)
Definition field_2x2 : GameField := arr_of_list [1%positive; 2%positive].
Definition store_2x2 : Store :=
  mkStore {[ 1%positive := arr_of_list [fixed_one (0, 0); open_cell (0, 1)];
             2%positive := arr_of_list [open_cell (1, 0); open_cell (1, 1)] ]} [].

(** [const row = [a, b]; const g = [row, row]]: the same row array at both
    row indices. *)
Definition field_shared_row : GameField := arr_of_list [1%positive; 1%positive].
Definition store_shared_row : Store :=
  mkStore {[ 1%positive := arr_of_list [open_cell (0, 0); open_cell (0, 1)] ]} [].

(** ** Properties *)

(** *** Arrays and the monad *)

Lemma new_Array_valid {A} (n : Z) :
  0 ≤ n < two32 → new_Array (A:=A) n = Normal (mkArray n ∅).
Proof.
  intros [H0 H1]. unfold new_Array.
  destruct (Z.leb_spec 0 n); [|lia].
  destruct (Z.ltb_spec n two32); [done|lia].
Qed.

Lemma new_Array_invalid {A} (n : Z) :
  ¬ (0 ≤ n < two32) → new_Array (A:=A) n = Throw RangeError.
Proof.
  intros H. unfold new_Array.
  destruct (Z.leb_spec 0 n); [|done].
  destruct (Z.ltb_spec n two32); [lia|done].
Qed.

(** [map] over holes only: the callback is never called. *)
Lemma map_loop_holes {A B} (f : A → Z → JS B) (a : JsArray A) ks acc σ :
  arr_elems a = ∅ → map_loop f a ks acc σ = (Normal acc, σ).
Proof.
  intros Hempty. induction ks as [|k ks IH]; simpl; [done|].
  by rewrite Hempty, lookup_empty.
Qed.

Lemma arr_map_holes {A B} (f : A → Z → JS B) (n : Z) σ :
  arr_map f (mkArray n ∅) σ = (Normal (mkArray n ∅), σ).
Proof.
  unfold arr_map, js_bind. by rewrite map_loop_holes.
Qed.

Lemma cellAt_no_row (c : CellCoordinate) (g : GameField) σ :
  arr_elems g !! c.1 = None → cellAt c g σ = (Throw TypeError, σ).
Proof.
  intros H. unfold cellAt, js_bind, arr_get, coord. by rewrite H.
Qed.

Lemma cellAt_row (c : CellCoordinate) (g : GameField) σ l row :
  arr_elems g !! c.1 = Some l → heap σ !! l = Some row →
  cellAt c g σ = (Normal (arr_elems row !! c.2), σ).
Proof.
  intros Hg Hl. unfold cellAt, js_bind, arr_get, deref, coord.
  rewrite Hg. simpl. by rewrite Hl.
Qed.

Lemma setCellAt_no_row (c : CellCoordinate) (g : GameField) v σ :
  arr_elems g !! c.1 = None → setCellAt c g v σ = (Throw TypeError, σ).
Proof.
  intros H. unfold setCellAt, js_bind, arr_get, coord. by rewrite H.
Qed.

Lemma setCellAt_row (c : CellCoordinate) (g : GameField) v σ l row :
  arr_elems g !! c.1 = Some l → heap σ !! l = Some row →
  setCellAt c g v σ =
    (Normal tt, mkStore (<[l:=arr_set row c.2 v]> (heap σ)) (console σ)).
Proof.
  intros Hg Hl. unfold setCellAt, store_elem, js_bind, arr_get, deref, coord.
  rewrite Hg. simpl. by rewrite Hl.
Qed.

(** *** [initializeGame] without initial cells *)

(** The rows are mapped from [new Array(MAXROW)], which has no element: no
    row is built and no cell is created. *)
Lemma initializeGame_nil (settings : GameSettings) σ :
  0 ≤ MAXROW settings < two32 →
  initializeGame [] settings σ = (Normal (mkArray (MAXROW settings) ∅), σ).
Proof.
  intros Hrow. unfold initializeGame, js_bind, js_lift.
  rewrite (new_Array_valid _ Hrow), arr_map_holes. done.
Qed.

Lemma initializeGame_RangeError (settings : GameSettings) content σ :
  ¬ (0 ≤ MAXROW settings < two32) →
  initializeGame content settings σ = (Throw RangeError, σ).
Proof.
  intros Hrow. unfold initializeGame, js_bind, js_lift.
  by rewrite (new_Array_invalid _ Hrow).
Qed.

Lemma initializeGame_nil_not_full (settings : GameSettings) σ :
  0 < MAXROW settings < two32 → 0 < MAXCOL settings →
  ∃ g σ', initializeGame [] settings σ = (Normal g, σ')
    ∧ ¬ full_domain_grid settings σ' g.
Proof.
  intros Hrow Hcol. eexists _, _. split.
  - apply initializeGame_nil. lia.
  - intros Hfull. destruct (Hfull 0 0) as (cell & Hcell & _); [lia..|].
    rewrite cellAt_no_row in Hcell; [done|]. apply lookup_empty.
Qed.

(** With the example of [Binario.tsx], as [App.tsx] calls it, the first
    cell is found and [setCellAt] writes into a row that does not exist. *)
Lemma initializeGame_binarioExample_TypeError :
  (initializeGame binarioExample binarioGameSettings empty_store).1
  = Throw TypeError.
Proof. by vm_compute. Qed.

(** C1.  On [initializeGame([], binarioGameSettings)] the code returns an
    array of length 12 with no element at all: reading any position raises
    [TypeError], so the field is not the 12 x 12 grid of cells holding
    [CELLRESULTS] with [fixed = false] that the claim describes. *)
Theorem initializeGame_binario_empty_has_no_cells :
  ∃ g σ, initializeGame [] binarioGameSettings empty_store = (Normal g, σ)
    ∧ arr_length g = 12
    ∧ arr_elems g = ∅
    ∧ (∀ r c, (cellAt (r, c) g σ).1 = Throw TypeError)
    ∧ ¬ full_domain_grid binarioGameSettings σ g.
Proof.
  exists (mkArray 12 ∅), empty_store. split; [by vm_compute|].
  split; [done|]. split; [done|]. split.
  - intros r c. rewrite cellAt_no_row; [done|]. apply lookup_empty.
  - intros Hfull. destruct (Hfull 0 0) as (cell & Hcell & _); [done..|].
    rewrite cellAt_no_row in Hcell; [done|]. apply lookup_empty.
Qed.

(** *** Row and column collections *)

Lemma every_equals_first_const (l : list Z) (x : Z) :
  (∀ y, y ∈ l → y = x) →
  forallb (λ val, bool_decide (Some val = l !! 0%nat)) l = true.
Proof.
  intros Hall. destruct l as [|z l]; [done|]. simpl.
  apply andb_true_iff. split; [by apply bool_decide_eq_true|].
  apply forallb_forall. intros y Hy. apply bool_decide_eq_true.
  f_equal. rewrite (Hall z), (Hall y); [done| |]; [right|left].
  by apply list_elem_of_In.
Qed.

Lemma every_equals_first_seqZ (m : Z) :
  forallb (λ val, bool_decide (Some val = seqZ 0 m !! 0%nat)) (seqZ 0 m)
  = bool_decide (m ≤ 1).
Proof.
  destruct (decide (m ≤ 1)) as [Hle|Hgt].
  - rewrite (bool_decide_eq_true_2 _ Hle).
    apply every_equals_first_const with (x := 0).
    intros y Hy. apply elem_of_seqZ in Hy. lia.
  - rewrite (bool_decide_eq_false_2 _ Hgt).
    apply not_true_iff_false. intros Hall.
    rewrite forallb_forall in Hall.
    assert (Hin : In 1 (seqZ 0 m)).
    { apply list_elem_of_In, elem_of_seqZ. lia. }
    specialize (Hall 1 Hin). apply bool_decide_eq_true in Hall.
    rewrite lookup_seqZ_lt in Hall by lia. discriminate.
Qed.

Lemma rowCollection_valid (r m : Z) :
  0 ≤ m < two32 → rowCollection r m = Normal (map (λ itm, (r, itm)) (seqZ 0 m)).
Proof. intros Hm. unfold rowCollection. by rewrite (new_Array_valid _ Hm). Qed.

Lemma colCollection_valid (c n : Z) :
  0 ≤ n < two32 → colCollection c n = Normal (map (λ itm, (itm, c)) (seqZ 0 n)).
Proof. intros Hn. unfold colCollection. by rewrite (new_Array_valid _ Hn). Qed.

Lemma isRowCollection_row (r m : Z) :
  isRowCollection (map (λ itm, (r, itm)) (seqZ 0 m)) = true.
Proof.
  unfold isRowCollection. rewrite map_map. simpl.
  apply every_equals_first_const with (x := r).
  intros y Hy. apply list_elem_of_In, in_map_iff in Hy.
  by destruct Hy as (? & <- & _).
Qed.

Lemma isColumnCollection_row (r m : Z) :
  isColumnCollection (map (λ itm, (r, itm)) (seqZ 0 m)) = bool_decide (m ≤ 1).
Proof.
  unfold isColumnCollection. rewrite map_map. simpl. rewrite map_id.
  apply every_equals_first_seqZ.
Qed.

Lemma lookup_map_seqZ {B} (f : Z → B) (m k : Z) :
  0 ≤ k < m → map f (seqZ 0 m) !! Z.to_nat k = Some (f k).
Proof.
  intros Hk. change (map f (seqZ 0 m)) with (f <$> seqZ 0 m).
  rewrite list_lookup_fmap, lookup_seqZ_lt by lia. simpl. f_equal. f_equal. lia.
Qed.

(** C7.  For a valid bound [m] (positive, a legal array length),
    [isRowCollection (rowCollection r m)] is true and
    [isColumnCollection (rowCollection r m)] is false unless [m = 1];
    [rowCollection r m] is the sequence [(r,0) .. (r,m-1)] and
    [colCollection c n] is the sequence [(0,c) .. (n-1,c)]. *)
Theorem collection_classification (r c m n : Z) :
  0 < m < two32 → 0 < n < two32 →
  ∃ rows cols,
    rowCollection r m = Normal rows
    ∧ colCollection c n = Normal cols
    ∧ isRowCollection rows = true
    ∧ (m ≠ 1 → isColumnCollection rows = false)
    ∧ (m = 1 → isColumnCollection rows = true)
    ∧ length rows = Z.to_nat m
    ∧ (∀ k, 0 ≤ k < m → rows !! Z.to_nat k = Some (r, k))
    ∧ length cols = Z.to_nat n
    ∧ (∀ k, 0 ≤ k < n → cols !! Z.to_nat k = Some (k, c)).
Proof.
  intros Hm Hn.
  exists (map (λ itm, (r, itm)) (seqZ 0 m)), (map (λ itm, (itm, c)) (seqZ 0 n)).
  split; [apply rowCollection_valid; lia|].
  split; [apply colCollection_valid; lia|].
  split; [apply isRowCollection_row|].
  rewrite isColumnCollection_row.
  split; [intros ?; apply bool_decide_eq_false_2; lia|].
  split; [intros ?; apply bool_decide_eq_true_2; lia|].
  rewrite !length_map, !length_seqZ.
  split; [done|]. split; [intros k Hk; by apply lookup_map_seqZ|].
  split; [done|]. intros k Hk. by apply (lookup_map_seqZ (λ itm, (itm, c))).
Qed.

Lemma collection_classification_witness :
  ∃ rows cols,
    rowCollection 3 12 = Normal rows
    ∧ colCollection 5 12 = Normal cols
    ∧ isRowCollection rows = true
    ∧ (12 ≠ 1 → isColumnCollection rows = false)
    ∧ (12 = 1 → isColumnCollection rows = true)
    ∧ length rows = Z.to_nat 12
    ∧ (∀ k, 0 ≤ k < 12 → rows !! Z.to_nat k = Some (3, k))
    ∧ length cols = Z.to_nat 12
    ∧ (∀ k, 0 ≤ k < 12 → cols !! Z.to_nat k = Some (k, 5)).
Proof. apply (collection_classification 3 5 12 12); unfold two32; lia. Defined.

(** *** Reading and writing a field *)

Lemma arr_of_list_wf {A} (l : list A) : arr_wf (arr_of_list l).
Proof.
  intros k [x Hx]. simpl in *.
  apply lookup_map_seqZ_Some in Hx as [Hk Hx].
  apply lookup_lt_Some in Hx. lia.
Qed.

(** [cellAt] and [setCellAt] in terms of the row found at [c]'s row index. *)
Lemma cellAt_row_at (c : CellCoordinate) (g : GameField) σ :
  cellAt c g σ =
    match row_at σ g c.1 with
    | Some row => (Normal (arr_elems row !! c.2), σ)
    | None => (Throw TypeError, σ)
    end.
Proof.
  unfold row_at. destruct (arr_elems g !! c.1) as [l|] eqn:Hg.
  - destruct (heap σ !! l) as [row|] eqn:Hl.
    + by apply cellAt_row with (l := l).
    + unfold cellAt, js_bind, arr_get, deref, coord. rewrite Hg. simpl.
      by rewrite Hl.
  - by apply cellAt_no_row.
Qed.

Lemma cellAt_Some_inv (c : CellCoordinate) (g : GameField) σ cell :
  (cellAt c g σ).1 = Normal (Some cell) →
  ∃ l row, arr_elems g !! c.1 = Some l ∧ heap σ !! l = Some row
    ∧ arr_elems row !! c.2 = Some cell.
Proof.
  rewrite cellAt_row_at. unfold row_at.
  destruct (arr_elems g !! c.1) as [l|] eqn:Hg; [|done].
  destruct (heap σ !! l) as [row|] eqn:Hl; [|done]. simpl.
  intros [= Hcell]. by exists l, row.
Qed.

Lemma rectangular_outside_row σ g maxRow maxCol r :
  rectangular σ g maxRow maxCol → ¬ (0 ≤ r < maxRow) → row_at σ g r = None.
Proof.
  intros (Hlen & Hwf & _) Hr. unfold row_at.
  destruct (arr_elems g !! r) as [l|] eqn:Hg; [|done].
  destruct Hr. rewrite <- Hlen. apply Hwf. by rewrite Hg.
Qed.

(** C8 (as amended).  [cellAt] checks no bound.  On a [maxRow x maxCol]
    field it returns the stored cell at a coordinate in bounds; out of
    bounds, it raises the runtime's [TypeError] when the row index is out
    of range, and returns [undefined] without failing when the row index
    is in range and the column index is not. *)
Theorem cellAt_checks_no_bound σ (g : GameField) maxRow maxCol
    (c : CellCoordinate) :
  rectangular σ g maxRow maxCol →
  (¬ (0 ≤ c.1 < maxRow) → cellAt c g σ = (Throw TypeError, σ))
  ∧ (0 ≤ c.1 < maxRow → ¬ (0 ≤ c.2 < maxCol) →
       cellAt c g σ = (Normal None, σ))
  ∧ (0 ≤ c.1 < maxRow → 0 ≤ c.2 < maxCol →
       ∃ row cell, row_at σ g c.1 = Some row
         ∧ arr_elems row !! c.2 = Some cell
         ∧ cellAt c g σ = (Normal (Some cell), σ)).
Proof.
  intros Hrect. split; [|split].
  - intros Hr. rewrite cellAt_row_at.
    by rewrite (rectangular_outside_row _ _ _ _ _ Hrect Hr).
  - intros Hr Hc. destruct Hrect as (_ & _ & Hrows).
    destruct (Hrows _ Hr) as (row & Hrow & Hlen & Hwf & _).
    rewrite cellAt_row_at, Hrow.
    destruct (arr_elems row !! c.2) as [cell|] eqn:Hcell; [|done].
    destruct Hc. rewrite <- Hlen. apply Hwf. by rewrite Hcell.
  - intros Hr Hc. destruct Hrect as (_ & _ & Hrows).
    destruct (Hrows _ Hr) as (row & Hrow & _ & _ & Hdense).
    destruct (Hdense _ Hc) as [cell Hcell].
    exists row, cell. by rewrite cellAt_row_at, Hrow, Hcell.
Qed.

Lemma rectangular_1x1 : rectangular store_1x1 field_1x1 1 1.
Proof.
  split; [done|]. split; [apply arr_of_list_wf|].
  intros r Hr. assert (r = 0) as -> by lia.
  exists (arr_of_list [fixed_one (0, 0)]).
  split; [by vm_compute|]. split; [done|]. split; [apply arr_of_list_wf|].
  intros c Hc. assert (c = 0) as -> by lia. by eexists.
Qed.

Lemma cellAt_checks_no_bound_witness :
  rectangular store_1x1 field_1x1 1 1
  ∧ (¬ (0 ≤ (0, 0).1 < 1) → cellAt (0, 0) field_1x1 store_1x1 = (Throw TypeError, store_1x1))
  ∧ (0 ≤ (0, 0).1 < 1 → ¬ (0 ≤ (0, 0).2 < 1) →
       cellAt (0, 0) field_1x1 store_1x1 = (Normal None, store_1x1))
  ∧ (0 ≤ (0, 0).1 < 1 → 0 ≤ (0, 0).2 < 1 →
       ∃ row cell, row_at store_1x1 field_1x1 (0, 0).1 = Some row
         ∧ arr_elems row !! (0, 0).2 = Some cell
         ∧ cellAt (0, 0) field_1x1 store_1x1 = (Normal (Some cell), store_1x1)).
Proof.
  split; [apply rectangular_1x1|].
  apply (cellAt_checks_no_bound store_1x1 field_1x1 1 1 (0, 0)).
  apply rectangular_1x1.
Defined.

(** C8, the claim as stated, fails: on the 1 x 1 field the coordinate
    [(0, 7)] lies outside [[0,1) x [0,1)], and [cellAt] returns [undefined]
    instead of failing. *)
Lemma cellAt_out_of_bounds_no_failure :
  rectangular store_1x1 field_1x1 1 1
  ∧ ¬ (0 ≤ 7 < 1)
  ∧ cellAt (0, 7) field_1x1 store_1x1 = (Normal None, store_1x1)
  ∧ ¬ fails (cellAt (0, 7) field_1x1 store_1x1).1.
Proof.
  split; [apply rectangular_1x1|]. split; [lia|].
  split; [by vm_compute|]. by intros [e He].
Qed.

Lemma setCellAt_row_at (c : CellCoordinate) (g : GameField) v σ l row :
  arr_elems g !! c.1 = Some l → heap σ !! l = Some row →
  ∃ σ', setCellAt c g v σ = (Normal tt, σ')
    ∧ heap σ' = <[l:=arr_set row c.2 v]> (heap σ)
    ∧ console σ' = console σ.
Proof.
  intros Hg Hl. eexists. split; [by apply setCellAt_row|]. done.
Qed.

(** After a write through row [l], what [cellAt] reads at [c']. *)
Lemma cellAt_after_write (c' : CellCoordinate) (g : GameField) σ σ' l row k v :
  heap σ !! l = Some row →
  heap σ' = <[l:=arr_set row k v]> (heap σ) →
  (cellAt c' g σ').1 =
    if decide (arr_elems g !! c'.1 = Some l ∧ c'.2 = k)
    then Normal (Some v)
    else (cellAt c' g σ).1.
Proof.
  intros Hl Hheap. rewrite !cellAt_row_at. unfold row_at. rewrite Hheap.
  destruct (arr_elems g !! c'.1) as [l'|] eqn:Hg.
  - destruct (decide (l' = l)) as [->|Hne].
    + rewrite lookup_insert_eq, Hl. simpl.
      destruct (decide (c'.2 = k)) as [->|Hk].
      * rewrite decide_True by done. by rewrite lookup_insert_eq.
      * rewrite decide_False by (intros [_ ?]; done).
        by rewrite lookup_insert_ne.
    + rewrite lookup_insert_ne by done.
      rewrite decide_False by (intros [[= ?] _]; done).
      by destruct (heap σ !! l').
  - by rewrite decide_False by (intros [? _]; done).
Qed.

Lemma in_bounds_row σ (g : GameField) (c : CellCoordinate) :
  in_bounds σ g c →
  ∃ l row, arr_elems g !! c.1 = Some l ∧ heap σ !! l = Some row
    ∧ 0 ≤ c.2 < arr_length row.
Proof.
  intros (_ & row & Hrow & Hc). unfold row_at in Hrow.
  destruct (arr_elems g !! c.1) as [l|] eqn:Hg; [|done]. by exists l, row.
Qed.

(** C10 (as amended).  On a field whose row arrays all exist and are
    pairwise distinct objects, [setCellAt (c, g, v)] at a coordinate in
    bounds makes [cellAt (c, g)] return [v] and leaves what [cellAt]
    returns at every other coordinate in bounds as it was. *)
Theorem setCellAt_frame σ (g : GameField) (c : CellCoordinate) (v : Cell) :
  rows_exist σ g → rows_distinct g → in_bounds σ g c →
  ∃ σ', setCellAt c g v σ = (Normal tt, σ')
    ∧ (cellAt c g σ').1 = Normal (Some v)
    ∧ ∀ c', in_bounds σ g c' → c' ≠ c →
        (cellAt c' g σ').1 = (cellAt c' g σ).1.
Proof.
  intros _ Hdistinct Hc.
  destruct (in_bounds_row _ _ _ Hc) as (l & row & Hg & Hl & _).
  destruct (setCellAt_row_at c g v σ l row Hg Hl) as (σ' & Hset & Hheap & _).
  exists σ'. split; [done|]. split.
  - rewrite (cellAt_after_write c g σ σ' l row c.2 v Hl Hheap).
    by rewrite decide_True.
  - intros c' Hc' Hne.
    rewrite (cellAt_after_write c' g σ σ' l row c.2 v Hl Hheap).
    rewrite decide_False; [done|]. intros [Hg' Hcol]. apply Hne.
    destruct Hc as [Hr _], Hc' as [Hr' _].
    pose proof (Hdistinct _ _ _ Hr' Hr Hg' Hg) as Hrow.
    destruct c, c'. simpl in *. by subst.
Qed.

Lemma rows_exist_2x2 : rows_exist store_2x2 field_2x2.
Proof.
  intros r Hr. change (arr_length field_2x2) with 2 in Hr.
  assert (r = 0 ∨ r = 1) as [-> | ->] by lia; by eexists.
Qed.

Lemma rows_distinct_2x2 : rows_distinct field_2x2.
Proof.
  intros r r' l Hr Hr'. change (arr_length field_2x2) with 2 in Hr, Hr'.
  assert (r = 0 ∨ r = 1) as [-> | ->] by lia;
    assert (r' = 0 ∨ r' = 1) as [-> | ->] by lia;
    vm_compute; congruence.
Qed.

Lemma in_bounds_2x2_origin : in_bounds store_2x2 field_2x2 (0, 0).
Proof.
  split; [done|].
  exists (arr_of_list [fixed_one (0, 0); open_cell (0, 1)]). by vm_compute.
Qed.

Lemma setCellAt_frame_witness :
  rows_exist store_2x2 field_2x2
  ∧ rows_distinct field_2x2
  ∧ in_bounds store_2x2 field_2x2 (0, 0)
  ∧ ∃ σ', setCellAt (0, 0) field_2x2 (open_cell (0, 0)) store_2x2 = (Normal tt, σ')
      ∧ (cellAt (0, 0) field_2x2 σ').1 = Normal (Some (open_cell (0, 0)))
      ∧ ∀ c', in_bounds store_2x2 field_2x2 c' → c' ≠ (0, 0) →
          (cellAt c' field_2x2 σ').1 = (cellAt c' field_2x2 store_2x2).1.
Proof.
  split; [apply rows_exist_2x2|]. split; [apply rows_distinct_2x2|].
  split; [apply in_bounds_2x2_origin|].
  apply (setCellAt_frame store_2x2 field_2x2 (0, 0) (open_cell (0, 0))).
  - apply rows_exist_2x2.
  - apply rows_distinct_2x2.
  - apply in_bounds_2x2_origin.
Defined.

(** C10, the claim as stated, fails when one row array is stored at two row
    indices: every row of [field_shared_row] exists, [(0, 0)] and [(1, 0)]
    are in bounds and differ, and writing at [(0, 0)] changes what
    [cellAt] returns at [(1, 0)]. *)
Lemma setCellAt_shared_row_changes_other_cell :
  rows_exist store_shared_row field_shared_row
  ∧ in_bounds store_shared_row field_shared_row (0, 0)
  ∧ in_bounds store_shared_row field_shared_row (1, 0)
  ∧ ∃ σ', setCellAt (0, 0) field_shared_row (fixed_one (0, 0)) store_shared_row
            = (Normal tt, σ')
      ∧ (cellAt (1, 0) field_shared_row store_shared_row).1
          = Normal (Some (open_cell (0, 0)))
      ∧ (cellAt (1, 0) field_shared_row σ').1
          = Normal (Some (fixed_one (0, 0))).
Proof.
  split.
  { intros r Hr. change (arr_length field_shared_row) with 2 in Hr.
    assert (r = 0 ∨ r = 1) as [-> | ->] by lia; by eexists. }
  split.
  { split; [done|].
    exists (arr_of_list [open_cell (0, 0); open_cell (0, 1)]). by vm_compute. }
  split.
  { split; [done|].
    exists (arr_of_list [open_cell (0, 0); open_cell (0, 1)]). by vm_compute. }
  eexists. split; [by vm_compute|]. split; by vm_compute.
Qed.

(** *** Fixed cells *)

(** C3 (as amended).  [setCellAt] does not look at the cell it replaces:
    when the existing cell at [c] is fixed, [setCellAt (c, g, v)] still
    returns normally and the cell at [c] is [v] afterwards. *)
Theorem setCellAt_overwrites_fixed σ (g : GameField) (c : CellCoordinate)
    (old v : Cell) :
  (cellAt c g σ).1 = Normal (Some old) → isFixed old = true →
  ∃ σ', setCellAt c g v σ = (Normal tt, σ')
    ∧ (cellAt c g σ').1 = Normal (Some v).
Proof.
  intros Hold _.
  destruct (cellAt_Some_inv _ _ _ _ Hold) as (l & row & Hg & Hl & _).
  destruct (setCellAt_row_at c g v σ l row Hg Hl) as (σ' & Hset & Hheap & _).
  exists σ'. split; [done|].
  rewrite (cellAt_after_write c g σ σ' l row c.2 v Hl Hheap).
  by rewrite decide_True.
Qed.

Lemma setCellAt_overwrites_fixed_witness :
  (cellAt (0, 0) field_1x1 store_1x1).1 = Normal (Some (fixed_one (0, 0)))
  ∧ isFixed (fixed_one (0, 0)) = true
  ∧ ∃ σ', setCellAt (0, 0) field_1x1 (open_cell (0, 0)) store_1x1 = (Normal tt, σ')
      ∧ (cellAt (0, 0) field_1x1 σ').1 = Normal (Some (open_cell (0, 0))).
Proof.
  split; [by vm_compute|]. split; [reflexivity|].
  apply (setCellAt_overwrites_fixed store_1x1 field_1x1 (0, 0)
           (fixed_one (0, 0)) (open_cell (0, 0))).
  - by vm_compute.
  - reflexivity.
Defined.

(** C3, the claim as stated, fails: the cell at [(0, 0)] of the 1 x 1 field
    is fixed, the written cell differs from it, and [setCellAt] neither
    fails nor leaves the field unchanged; the possibility set of the fixed
    position changes from [["1"]] to [[0, 1]]. *)
Lemma setCellAt_fixed_cell_replaced :
  (cellAt (0, 0) field_1x1 store_1x1).1 = Normal (Some (fixed_one (0, 0)))
  ∧ isFixed (fixed_one (0, 0)) = true
  ∧ open_cell (0, 0) ≠ fixed_one (0, 0)
  ∧ ¬ fails (setCellAt (0, 0) field_1x1 (open_cell (0, 0)) store_1x1).1
  ∧ ∃ cell, (cellAt (0, 0) field_1x1
               (setCellAt (0, 0) field_1x1 (open_cell (0, 0)) store_1x1).2).1
            = Normal (Some cell)
      ∧ Possibilities cell ≠ Possibilities (fixed_one (0, 0)).
Proof.
  split; [by vm_compute|]. split; [done|]. split; [done|]. split.
  - intros [e He]. vm_compute in He. discriminate.
  - exists (open_cell (0, 0)). split; [by vm_compute|]. done.
Qed.

(** *** The coordinate stored in a cell *)

(** The cell [initCell] creates for position [rowIndex] of the row built
    for the outer index [colIndex] carries the two indices in the order
    inner, outer. *)
Lemma initCell_coordinates (settings : GameSettings) (colIndex rowIndex : Z) σ :
  initCell settings colIndex tt rowIndex σ
  = (Normal (mkCell (CELLRESULTS settings) false (rowIndex, colIndex)), σ).
Proof. reflexivity. Qed.

(** C2 (as amended).  [setCellAt (c, g, v)] preserves the invariant
    [grid[r][c].coordinate == (r, c)] of a [maxRow x maxCol] field whenever
    the coordinate carried by [v] is [c] and [c]'s row index is in bounds,
    whether the call returns or raises. *)
Theorem setCellAt_preserves_coordinates (maxRow maxCol : Z) σ (g : GameField)
    (c : CellCoordinate) (v : Cell) res σ' :
  coordinate_invariant maxRow maxCol σ g →
  Coordinates v = c →
  0 ≤ c.1 < maxRow →
  setCellAt c g v σ = (res, σ') →
  coordinate_invariant maxRow maxCol σ' g.
Proof.
  intros Hinv Hv Hr Hset r' c' Hr' Hc'.
  assert (Hcol0 : 0 ≤ 0 < maxCol) by lia.
  destruct (Hinv _ _ Hr Hcol0) as (cell0 & Hcell0 & Hcoord0).
  destruct (cellAt_Some_inv _ _ _ _ Hcell0) as (l & row & Hg & Hl & Hrow0).
  simpl in Hg, Hrow0.
  rewrite (setCellAt_row c g v σ l row Hg Hl) in Hset.
  injection Hset as <- <-.
  destruct (Hinv _ _ Hr' Hc') as (cell & Hcell & Hcoord).
  rewrite (cellAt_after_write (r', c') g σ
             (mkStore (<[l:=arr_set row c.2 v]> (heap σ)) (console σ))
             l row c.2 v Hl eq_refl).
  simpl. destruct (decide (arr_elems g !! r' = Some l ∧ c' = c.2))
    as [[Hg' ->]|Hother]; [|by exists cell].
  exists v. split; [done|]. rewrite Hv.
  (* the rows at [r'] and at [c.1] are the same object: their first cells
     carry the same coordinate *)
  destruct (Hinv _ _ Hr' Hcol0) as (cell1 & Hcell1 & Hcoord1).
  destruct (cellAt_Some_inv _ _ _ _ Hcell1) as (l1 & row1 & Hg1 & Hl1 & Hrow1).
  simpl in Hg1, Hrow1. rewrite Hg' in Hg1. injection Hg1 as <-.
  rewrite Hl in Hl1. injection Hl1 as <-.
  rewrite Hrow0 in Hrow1. injection Hrow1 as <-.
  rewrite Hcoord0 in Hcoord1. injection Hcoord1 as Heq.
  destruct c. simpl in *. by subst.
Qed.

Lemma coordinate_invariant_1x1 : coordinate_invariant 1 1 store_1x1 field_1x1.
Proof.
  intros r c Hr Hc. assert (r = 0) as -> by lia. assert (c = 0) as -> by lia.
  exists (fixed_one (0, 0)). split; by vm_compute.
Qed.

Lemma setCellAt_preserves_coordinates_witness :
  coordinate_invariant 1 1 store_1x1 field_1x1
  ∧ Coordinates (open_cell (0, 0)) = (0, 0)
  ∧ 0 ≤ (0, 0).1 < 1
  ∧ coordinate_invariant 1 1
      (setCellAt (0, 0) field_1x1 (open_cell (0, 0)) store_1x1).2 field_1x1.
Proof.
  split; [apply coordinate_invariant_1x1|]. split; [reflexivity|].
  split; [simpl; lia|].
  apply (setCellAt_preserves_coordinates 1 1 store_1x1 field_1x1 (0, 0)
           (open_cell (0, 0))
           (setCellAt (0, 0) field_1x1 (open_cell (0, 0)) store_1x1).1).
  - apply coordinate_invariant_1x1.
  - reflexivity.
  - simpl; lia.
  - by destruct (setCellAt (0, 0) field_1x1 (open_cell (0, 0)) store_1x1).
Defined.

(** C2, the claim as stated, fails.  After initialization the field holds no
    cell, so no position carries its coordinate; and on a field that has the
    invariant, [setCellAt] stores a cell that carries another coordinate
    than the position written. *)
Lemma coordinate_invariant_not_kept :
  (∃ g σ, initializeGame [] binarioGameSettings empty_store = (Normal g, σ)
     ∧ ¬ coordinate_invariant 12 12 σ g)
  ∧ coordinate_invariant 1 1 store_1x1 field_1x1
  ∧ ∃ σ', setCellAt (0, 0) field_1x1 (fixed_one (5, 5)) store_1x1 = (Normal tt, σ')
      ∧ ¬ coordinate_invariant 1 1 σ' field_1x1.
Proof.
  split.
  { exists (mkArray 12 ∅), empty_store. split; [by vm_compute|].
    intros Hinv. destruct (Hinv 0 0) as (cell & Hcell & _); [lia..|].
    rewrite cellAt_no_row in Hcell; [done|]. apply lookup_empty. }
  split; [apply coordinate_invariant_1x1|].
  eexists. split; [by vm_compute|].
  intros Hinv. destruct (Hinv 0 0) as (cell & Hcell & Hcoord); [lia..|].
  vm_compute in Hcell. injection Hcell as <-. discriminate Hcoord.
Qed.

(** *** [createCell] *)

(** C6 (as amended).  [createCell] validates nothing: for every
    possibilities list, fixed flag and coordinate it returns the cell with
    those three components, without failing and without touching the
    store. *)
Theorem createCell_returns_cell (p : CellPossibilities) (f : CellFixed)
    (c : CellCoordinate) σ :
  ∃ cell, createCell p f c σ = (Normal cell, σ)
    ∧ Possibilities cell = p
    ∧ isFixed cell = f
    ∧ Coordinates cell = c.
Proof. by exists (mkCell p f c). Qed.

(** C6, the claim as stated, fails: [createCell] returns a cell for a fixed
    cell with two possibilities, and for a possibilities list with a
    duplicate. *)
Lemma createCell_accepts_invalid_input :
  invalid_cell_input [CNum 0; CNum 1] true
  ∧ ¬ fails (createCell [CNum 0; CNum 1] true (0, 0) empty_store).1
  ∧ invalid_cell_input [CNum 0; CNum 0] false
  ∧ ¬ fails (createCell [CNum 0; CNum 0] false (0, 0) empty_store).1.
Proof.
  split; [left; split; [done|simpl; lia]|].
  split; [by intros [e He]|].
  split; [|by intros [e He]].
  right. intros Hnd. apply NoDup_cons in Hnd as [Hnotin _].
  apply Hnotin. left.
Qed.

(** *** Initial cells with several possibilities *)

Lemma placeCell_unfound (g : GameField) (cell : Cell) σ :
  cellIsFound cell = false →
  placeCell g cell σ =
    (Normal tt,
     mkStore (heap σ)
       ((console σ ++ [LogPlacingCell cell]) ++ [ErrorSeveralPossibilities])).
Proof.
  intros Hfound. unfold placeCell, js_bind. simpl. by rewrite Hfound.
Qed.

Lemma setCellAt_same_heap (c : CellCoordinate) (g : GameField) v σ1 σ2 :
  same_heap σ1 σ2 →
  (setCellAt c g v σ1).1 = (setCellAt c g v σ2).1
  ∧ same_heap (setCellAt c g v σ1).2 (setCellAt c g v σ2).2.
Proof.
  unfold same_heap. intros Hheap.
  unfold setCellAt, store_elem, js_bind, arr_get, deref, coord.
  destruct (arr_elems g !! c.1) as [l|]; simpl; [|done].
  rewrite Hheap. destruct (heap σ2 !! l) as [row|]; simpl; [|done].
  by rewrite Hheap.
Qed.

Lemma placeCell_same_heap (g : GameField) (cell : Cell) σ1 σ2 :
  same_heap σ1 σ2 →
  (placeCell g cell σ1).1 = (placeCell g cell σ2).1
  ∧ same_heap (placeCell g cell σ1).2 (placeCell g cell σ2).2.
Proof.
  intros Hheap. unfold placeCell, js_bind, console_write.
  destruct (cellIsFound cell); [|done]. by apply setCellAt_same_heap.
Qed.

(** Running [forEach] on all cells or on the found ones only differs in the
    console alone. *)
Lemma forEach_placeCell_filter (g : GameField) (content : list Cell) σ1 σ2 :
  same_heap σ1 σ2 →
  (forEach (placeCell g) content σ1).1
    = (forEach (placeCell g) (List.filter cellIsFound content) σ2).1
  ∧ same_heap (forEach (placeCell g) content σ1).2
      (forEach (placeCell g) (List.filter cellIsFound content) σ2).2.
Proof.
  revert σ1 σ2. induction content as [|cell content IH]; intros σ1 σ2 Hheap.
  - done.
  - simpl. destruct (cellIsFound cell) eqn:Hfound.
    + simpl. unfold js_bind.
      destruct (placeCell_same_heap g cell σ1 σ2 Hheap) as [Hres Hheap'].
      destruct (placeCell g cell σ1) as [[[]|e1] σ1'],
               (placeCell g cell σ2) as [[[]|e2] σ2']; simpl in *;
        try discriminate.
      * by apply IH.
      * by split.
    + unfold js_bind at 1 2. rewrite (placeCell_unfound _ _ _ Hfound).
      apply IH. exact Hheap.
Qed.

Lemma initializeGame_filter (content : list Cell) (settings : GameSettings) σ :
  (initializeGame content settings σ).1
    = (initializeGame (List.filter cellIsFound content) settings σ).1
  ∧ same_heap (initializeGame content settings σ).2
      (initializeGame (List.filter cellIsFound content) settings σ).2.
Proof.
  unfold initializeGame, js_bind, js_lift.
  destruct (new_Array (MAXROW settings)) as [rows|e]; [|done].
  destruct (arr_map (initRow settings) rows σ) as [[g|e] σ0]; [|done].
  destruct (forEach_placeCell_filter g content σ0 σ0 eq_refl) as [Hres Hheap].
  destruct (forEach (placeCell g) content σ0) as [[[]|e1] σ1],
           (forEach (placeCell g) (List.filter cellIsFound content) σ0)
             as [[[]|e2] σ2]; simpl in *; try discriminate; try done.
  by injection Hres as ->.
Qed.

(** C5 (as amended).  An initial cell whose possibilities list has a length
    other than 1 does not make [initializeGame] fail: the callback writes
    one [console.error] message for it and does not place it, and the call
    goes on; its outcome and the heap it leaves are those of the call
    without that cell. *)
Theorem initializeGame_skips_unfound_cell (before after : list Cell)
    (cell : Cell) (settings : GameSettings) σ :
  cellIsFound cell = false →
  (∀ g σ0,
     placeCell g cell σ0 =
       (Normal tt,
        mkStore (heap σ0)
          ((console σ0 ++ [LogPlacingCell cell]) ++ [ErrorSeveralPossibilities])))
  ∧ (initializeGame (before ++ cell :: after) settings σ).1
      = (initializeGame (before ++ after) settings σ).1
  ∧ same_heap (initializeGame (before ++ cell :: after) settings σ).2
      (initializeGame (before ++ after) settings σ).2.
Proof.
  intros Hfound. split; [intros g σ0; by apply placeCell_unfound|].
  destruct (initializeGame_filter (before ++ cell :: after) settings σ)
    as [Hres1 Hheap1].
  destruct (initializeGame_filter (before ++ after) settings σ)
    as [Hres2 Hheap2].
  assert (Hfilter : List.filter cellIsFound (before ++ cell :: after)
                    = List.filter cellIsFound (before ++ after)).
  { rewrite !List.filter_app. simpl. by rewrite Hfound. }
  rewrite Hfilter in Hres1, Hheap1. unfold same_heap in *.
  split; congruence.
Qed.

Lemma initializeGame_skips_unfound_cell_witness :
  cellIsFound (open_cell (0, 0)) = false
  ∧ (initializeGame ([] ++ open_cell (0, 0) :: []) binarioGameSettings empty_store).1
    = (initializeGame ([] ++ []) binarioGameSettings empty_store).1.
Proof.
  split; [reflexivity|].
  apply (initializeGame_skips_unfound_cell [] [] (open_cell (0, 0))
           binarioGameSettings empty_store).
  reflexivity.
Defined.

(** C5, the claim as stated, fails: given one initial cell with the two
    possibilities [[0, 1]], [initializeGame] returns a field, having written
    the error message to the console. *)
Lemma initializeGame_with_open_cell_returns :
  length (Possibilities (open_cell (0, 0))) = 2%nat
  ∧ initializeGame [open_cell (0, 0)] binarioGameSettings empty_store
    = (Normal (mkArray 12 ∅),
       mkStore ∅ [LogPlacingCell (open_cell (0, 0)); ErrorSeveralPossibilities])
  ∧ ¬ fails (initializeGame [open_cell (0, 0)] binarioGameSettings empty_store).1.
Proof.
  split; [reflexivity|]. split; [by vm_compute|].
  intros [e He]. vm_compute in He. discriminate.
Qed.

(** *** The schemas of the cell content and of the possibility domain *)

Lemma CellContentSchema_accepts (v : CellContent) :
  Schema.CellContentSchema v = true ↔
    (∃ s, v = CStr s ∧ String.length s = 1%nat)
    ∨ (∃ q, v = CNum q ∧ (q <= 9)%Q).
Proof.
  unfold Schema.CellContentSchema, Schema.z_union. simpl.
  rewrite orb_false_r, orb_true_iff. split.
  - intros [Hs|Hn]; destruct v as [s|q]; simpl in *; try discriminate.
    + left. exists s. split; [done|]. by apply Nat.eqb_eq.
    + right. exists q. split; [done|]. by apply Qle_bool_iff.
  - intros [(s & -> & Hs)|(q & -> & Hq)]; simpl.
    + left. by apply Nat.eqb_eq.
    + right. by apply Qle_bool_iff.
Qed.

(** [z.array(...).length(10)] accepts the arrays of exactly ten values. *)
Lemma CellPossibilitiesSchema_length (p : CellPossibilities) :
  Schema.CellPossibilitiesSchema p = true → length p = 10%nat.
Proof.
  unfold Schema.CellPossibilitiesSchema, Schema.z_array_length.
  intros H. apply andb_true_iff in H as [_ H]. by apply Nat.eqb_eq.
Qed.

(** C9 (as amended).  A possibility domain accepted by
    [CellPossibilitiesSchema] holds at most 10 values, and every accepted
    value is either a string of one character or a number at most 9, which
    need be neither an integer nor non-negative. *)
Theorem possibility_domain_accepted (p : CellPossibilities) :
  Schema.CellPossibilitiesSchema p = true →
  (length p ≤ 10)%nat
  ∧ ∀ v, In v p →
      (∃ s, v = CStr s ∧ String.length s = 1%nat)
      ∨ (∃ q, v = CNum q ∧ (q <= 9)%Q).
Proof.
  intros Hp. split.
  - rewrite (CellPossibilitiesSchema_length _ Hp). lia.
  - intros v Hv. apply CellContentSchema_accepts.
    unfold Schema.CellPossibilitiesSchema, Schema.z_array_length in Hp.
    apply andb_true_iff in Hp as [Hall _].
    rewrite forallb_forall in Hall. by apply Hall.
Qed.

Lemma possibility_domain_accepted_witness :
  let digits := map (λ n, CNum (inject_Z n)) (seqZ 0 10) in
  Schema.CellPossibilitiesSchema digits = true
  ∧ (length digits ≤ 10)%nat
  ∧ ∀ v, In v digits →
      (∃ s, v = CStr s ∧ String.length s = 1%nat)
      ∨ (∃ q, v = CNum q ∧ (q <= 9)%Q).
Proof.
  split; [by vm_compute|].
  apply (possibility_domain_accepted (map (λ n, CNum (inject_Z n)) (seqZ 0 10))).
  by vm_compute.
Defined.

(** C9, the claim as stated, fails: [CellContentSchema] accepts [-1] and
    [7/2], neither of which is an integer of [0 .. 9], and
    [CellPossibilitiesSchema] rejects the two-value domain [[0, 1]] of
    Binario. *)
Lemma schema_accepts_negative_rejects_binario :
  Schema.CellContentSchema (CNum (-1)) = true
  ∧ ¬ small_nonneg_integer (-1)
  ∧ Schema.CellContentSchema (CNum (7 # 2)) = true
  ∧ ¬ small_nonneg_integer (7 # 2)
  ∧ Schema.CellPossibilitiesSchema (CELLRESULTS binarioGameSettings) = false.
Proof.
  split; [reflexivity|]. split.
  { intros (n & Hn & Heq). unfold Qeq in Heq. simpl in Heq. lia. }
  split; [reflexivity|]. split; [|reflexivity].
  intros (n & Hn & Heq). unfold Qeq in Heq. simpl in Heq. lia.
Qed.

(** ** Further properties of the helpers *)

(** *** Classification of collections *)

Lemma every_equals_first_iff (l : list Z) :
  forallb (λ val, bool_decide (Some val = l !! 0%nat)) l = true
  ↔ ∀ x y, x ∈ l → y ∈ l → x = y.
Proof.
  split.
  - intros Hall x y Hx Hy. rewrite forallb_forall in Hall.
    apply list_elem_of_In, Hall, bool_decide_eq_true in Hx.
    apply list_elem_of_In, Hall, bool_decide_eq_true in Hy.
    congruence.
  - intros Heq. destruct l as [|z l]; [done|].
    apply every_equals_first_const with (x := z).
    intros y Hy. apply Heq; [done|left].
Qed.

Lemma isRowCollection_iff (l : CoordinateCollection) :
  isRowCollection l = true ↔ ∀ a b, a ∈ l → b ∈ l → a.1 = b.1.
Proof.
  unfold isRowCollection. rewrite every_equals_first_iff. simpl. split.
  - intros H a b Ha Hb.
    apply H; apply list_elem_of_In, in_map, list_elem_of_In; done.
  - intros H x y Hx Hy.
    apply list_elem_of_In, in_map_iff in Hx as (a & <- & Ha).
    apply list_elem_of_In, in_map_iff in Hy as (b & <- & Hb).
    apply H; by apply list_elem_of_In.
Qed.

Lemma isColumnCollection_iff (l : CoordinateCollection) :
  isColumnCollection l = true ↔ ∀ a b, a ∈ l → b ∈ l → a.2 = b.2.
Proof.
  unfold isColumnCollection. rewrite every_equals_first_iff. simpl. split.
  - intros H a b Ha Hb.
    apply H; apply list_elem_of_In, in_map, list_elem_of_In; done.
  - intros H x y Hx Hy.
    apply list_elem_of_In, in_map_iff in Hx as (a & <- & Ha).
    apply list_elem_of_In, in_map_iff in Hy as (b & <- & Hb).
    apply H; by apply list_elem_of_In.
Qed.

(** X1.  [colCollection c n], for a bound [n] that is positive and a legal
    array length, is a column collection, and it is a row collection only
    when [n = 1]. *)
Theorem colCollection_classification (c n : Z) :
  0 < n < two32 →
  ∃ cols, colCollection c n = Normal cols
    ∧ isColumnCollection cols = true
    ∧ (n ≠ 1 → isRowCollection cols = false)
    ∧ (n = 1 → isRowCollection cols = true).
Proof.
  intros Hn. exists (map (λ itm, (itm, c)) (seqZ 0 n)).
  split; [apply colCollection_valid; lia|]. split; [|split].
  - apply isColumnCollection_iff. intros a b Ha Hb.
    apply list_elem_of_In, in_map_iff in Ha as (x & <- & _).
    by apply list_elem_of_In, in_map_iff in Hb as (y & <- & _).
  - intros Hne. apply not_true_iff_false. rewrite isRowCollection_iff.
    intros Hall.
    assert (H0 : (0, c) ∈ map (λ itm, (itm, c)) (seqZ 0 n)).
    { apply list_elem_of_In, in_map_iff. exists 0. split; [done|].
      apply list_elem_of_In, elem_of_seqZ. lia. }
    assert (H1 : (1, c) ∈ map (λ itm, (itm, c)) (seqZ 0 n)).
    { apply list_elem_of_In, in_map_iff. exists 1. split; [done|].
      apply list_elem_of_In, elem_of_seqZ. lia. }
    by specialize (Hall _ _ H0 H1).
  - intros ->. reflexivity.
Qed.

Lemma colCollection_classification_witness :
  0 < 12 < two32
  ∧ ∃ cols, colCollection 5 12 = Normal cols
      ∧ isColumnCollection cols = true
      ∧ (12 ≠ 1 → isRowCollection cols = false)
      ∧ (12 = 1 → isRowCollection cols = true).
Proof.
  split; [unfold two32; lia|].
  apply (colCollection_classification 5 12). unfold two32; lia.
Defined.


(** X3.  [rowCollection r m] lists every position [(r, b)] with
    [0 <= b < m] exactly once and nothing else; [colCollection c n] does
    the same for the positions [(a, c)] with [0 <= a < n]. *)
Theorem collection_members (r c m n : Z) rows cols :
  rowCollection r m = Normal rows →
  colCollection c n = Normal cols →
  NoDup rows
  ∧ (∀ a b, (a, b) ∈ rows ↔ a = r ∧ 0 ≤ b < m)
  ∧ NoDup cols
  ∧ (∀ a b, (a, b) ∈ cols ↔ 0 ≤ a < n ∧ b = c).
Proof.
  intros Hrows Hcols.
  assert (Hm : 0 ≤ m < two32).
  { destruct (decide (0 ≤ m < two32)) as [|Hm]; [done|].
    unfold rowCollection in Hrows. by rewrite (new_Array_invalid _ Hm) in Hrows. }
  assert (Hn : 0 ≤ n < two32).
  { destruct (decide (0 ≤ n < two32)) as [|Hn]; [done|].
    unfold colCollection in Hcols. by rewrite (new_Array_invalid _ Hn) in Hcols. }
  rewrite (rowCollection_valid _ _ Hm) in Hrows. injection Hrows as <-.
  rewrite (colCollection_valid _ _ Hn) in Hcols. injection Hcols as <-.
  split; [|split; [|split]].
  - assert (Inj (=) (=) (λ itm : Z, (r, itm))) by (by intros x y [= ->]).
    apply (NoDup_fmap_2 (λ itm, (r, itm))), NoDup_seqZ.
  - intros a b. rewrite list_elem_of_In, in_map_iff. split.
    + intros (x & [= <- <-] & Hx).
      apply list_elem_of_In, elem_of_seqZ in Hx. lia.
    + intros [-> Hb]. exists b. split; [done|].
      apply list_elem_of_In, elem_of_seqZ. lia.
  - assert (Inj (=) (=) (λ itm : Z, (itm, c))) by (by intros x y [= ->]).
    apply (NoDup_fmap_2 (λ itm, (itm, c))), NoDup_seqZ.
  - intros a b. rewrite list_elem_of_In, in_map_iff. split.
    + intros (x & [= <- <-] & Hx).
      apply list_elem_of_In, elem_of_seqZ in Hx. lia.
    + intros [Ha ->]. exists a. split; [done|].
      apply list_elem_of_In, elem_of_seqZ. lia.
Qed.

Lemma collection_members_witness :
  rowCollection 3 2 = Normal [(3, 0); (3, 1)]
  ∧ colCollection 5 2 = Normal [(0, 5); (1, 5)]
  ∧ NoDup [(3, 0); (3, 1)]
  ∧ (∀ a b, (a, b) ∈ [(3, 0); (3, 1)] ↔ a = 3 ∧ 0 ≤ b < 2)
  ∧ NoDup [(0, 5); (1, 5)]
  ∧ (∀ a b, (a, b) ∈ [(0, 5); (1, 5)] ↔ 0 ≤ a < 2 ∧ b = 5).
Proof.
  split; [reflexivity|]. split; [reflexivity|].
  apply (collection_members 3 5 2 2); reflexivity.
Defined.

(** X4.  [colCollection] is the transpose of [rowCollection]: for every
    index and bound, [colCollection c n] is [rowCollection c n] with the two
    components of each coordinate swapped, and it raises when that one
    raises. *)
Theorem colCollection_transposes_rowCollection (c n : Z) :
  colCollection c n =
    match rowCollection c n with
    | Normal rows => Normal (map prod_swap rows)
    | Throw e => Throw e
    end.
Proof.
  unfold colCollection, rowCollection.
  destruct (new_Array n) as [a|e]; [|done].
  by rewrite map_map.
Qed.

(** X5.  The classification depends on the members only, and is kept by
    sub-collections: a collection all of whose members belong to a row
    (column) collection is a row (column) collection, whatever their order
    and however often they occur. *)
Theorem classification_of_subcollection (l l' : CoordinateCollection) :
  (∀ c, c ∈ l' → c ∈ l) →
  (isRowCollection l = true → isRowCollection l' = true)
  ∧ (isColumnCollection l = true → isColumnCollection l' = true).
Proof.
  intros Hsub. split.
  - rewrite !isRowCollection_iff. intros H a b Ha Hb. apply H; by apply Hsub.
  - rewrite !isColumnCollection_iff. intros H a b Ha Hb. apply H; by apply Hsub.
Qed.

Lemma classification_of_subcollection_witness :
  (∀ c, c ∈ [(3, 1); (3, 0); (3, 1)] → c ∈ [(3, 0); (3, 1); (3, 2)])
  ∧ (isRowCollection [(3, 0); (3, 1); (3, 2)] = true →
     isRowCollection [(3, 1); (3, 0); (3, 1)] = true)
  ∧ (isColumnCollection [(3, 0); (3, 1); (3, 2)] = true →
     isColumnCollection [(3, 1); (3, 0); (3, 1)] = true).
Proof.
  assert (Hsub : ∀ c : Z * Z,
            c ∈ [(3, 1); (3, 0); (3, 1)] → c ∈ [(3, 0); (3, 1); (3, 2)]).
  { intros c Hc. apply list_elem_of_In in Hc. apply list_elem_of_In.
    simpl in *. tauto. }
  split; [exact Hsub|].
  apply (classification_of_subcollection
           [(3, 0); (3, 1); (3, 2)] [(3, 1); (3, 0); (3, 1)]).
  exact Hsub.
Defined.

(** X6.  A collection is at once a row collection and a column collection
    exactly when all its members are the same coordinate (in particular
    the empty collection and every one-member collection are both). *)
Theorem row_and_column_collection (l : CoordinateCollection) :
  isRowCollection l && isColumnCollection l = true
  ↔ ∀ a b, a ∈ l → b ∈ l → a = b.
Proof.
  rewrite andb_true_iff, isRowCollection_iff, isColumnCollection_iff. split.
  - intros [Hr Hc] [a1 a2] [b1 b2] Ha Hb.
    specialize (Hr _ _ Ha Hb). specialize (Hc _ _ Ha Hb). simpl in *.
    by subst.
  - intros H. split; intros a b Ha Hb; by rewrite (H a b Ha Hb).
Qed.

(** *** [isCoordinateCollectionAllFound] *)

Lemma stored_cell_cellAt σ (g : GameField) (c : CellCoordinate) cell :
  stored_cell σ g c = Some cell ↔ (cellAt c g σ).1 = Normal (Some cell).
Proof.
  rewrite cellAt_row_at. unfold stored_cell.
  destruct (row_at σ g c.1) as [row|]; simpl; [|done].
  split; [by intros ->|by intros [= ->]].
Qed.

(** The callback of the [map] in [isCoordinateCollectionAllFound]. *)
Lemma found_flag_stored (c : CellCoordinate) (g : GameField) σ :
  (o <- cellAt c g ;; cell <- to_object o ;; js_ret (cellIsFound cell)) σ
  = match stored_cell σ g c with
    | Some cell => (Normal (cellIsFound cell), σ)
    | None => (Throw TypeError, σ)
    end.
Proof.
  unfold js_bind at 1. rewrite cellAt_row_at. unfold stored_cell.
  destruct (row_at σ g c.1) as [row|]; [|done].
  by destruct (arr_elems row !! c.2).
Qed.

Lemma found_flags_all_stored (cc : CoordinateCollection) (g : GameField) σ :
  (∀ c, c ∈ cc → is_Some (stored_cell σ g c)) →
  js_map (λ coordinate,
            o <- cellAt coordinate g ;;
            cell <- to_object o ;;
            js_ret (cellIsFound cell)) cc σ
  = (Normal (map (λ c, from_option cellIsFound false (stored_cell σ g c)) cc), σ).
Proof.
  induction cc as [|c cc IH]; intros Hall; [done|].
  simpl. unfold js_bind at 1. rewrite found_flag_stored.
  destruct (Hall c) as [cell Hcell]; [left|]. rewrite Hcell.
  unfold js_bind at 1. rewrite IH; [done|].
  intros c' Hc'. apply Hall. by right.
Qed.

Lemma found_flags_missing (cc : CoordinateCollection) (g : GameField) σ :
  (∃ c, c ∈ cc ∧ stored_cell σ g c = None) →
  js_map (λ coordinate,
            o <- cellAt coordinate g ;;
            cell <- to_object o ;;
            js_ret (cellIsFound cell)) cc σ
  = (Throw TypeError, σ).
Proof.
  induction cc as [|c cc IH]; intros (c0 & Hc0 & Hnone).
  - by apply elem_of_nil in Hc0.
  - simpl. unfold js_bind at 1. rewrite found_flag_stored.
    destruct (stored_cell σ g c) as [cell|] eqn:Hcell; [|done].
    unfold js_bind at 1. rewrite IH; [done|].
    exists c0. split; [|done].
    apply elem_of_cons in Hc0 as [->|]; [congruence|done].
Qed.

Lemma allFound_unfold (cc : CoordinateCollection) (g : GameField) σ :
  isCoordinateCollectionAllFound cc g σ
  = match js_map (λ coordinate,
                    o <- cellAt coordinate g ;;
                    cell <- to_object o ;;
                    js_ret (cellIsFound cell)) cc σ with
    | (Normal flags, σ') => (Normal (forallb id flags), σ')
    | (Throw e, σ') => (Throw e, σ')
    end.
Proof. reflexivity. Qed.

Lemma allFound_on_stored_cells_aux (cc : CoordinateCollection)
    (g : GameField) σ :
  (∀ c, c ∈ cc → is_Some (stored_cell σ g c)) →
  ∃ b, isCoordinateCollectionAllFound cc g σ = (Normal b, σ).
Proof.
  intros Hstored. eexists.
  by rewrite allFound_unfold, (found_flags_all_stored _ _ _ Hstored).
Qed.

(** X7.  When every coordinate of the collection holds a cell,
    [isCoordinateCollectionAllFound] returns normally and leaves the store
    as it was; the result is [true] exactly when each of these cells has
    exactly one possibility left. *)
Theorem allFound_on_stored_cells (cc : CoordinateCollection) (g : GameField) σ :
  (∀ c, c ∈ cc → ∃ cell, (cellAt c g σ).1 = Normal (Some cell)) →
  ∃ b, isCoordinateCollectionAllFound cc g σ = (Normal b, σ)
    ∧ (b = true ↔
       ∀ c cell, c ∈ cc → (cellAt c g σ).1 = Normal (Some cell) →
         length (Possibilities cell) = 1%nat).
Proof.
  intros Hall.
  assert (Hstored : ∀ c, c ∈ cc → is_Some (stored_cell σ g c)).
  { intros c Hc. destruct (Hall c Hc) as [cell Hcell].
    exists cell. by apply stored_cell_cellAt. }
  eexists. split.
  - by rewrite allFound_unfold, (found_flags_all_stored _ _ _ Hstored).
  - rewrite forallb_forall. split.
    + intros Hflags c cell Hc Hcell.
      apply stored_cell_cellAt in Hcell.
      specialize (Hflags (from_option cellIsFound false (stored_cell σ g c))).
      rewrite Hcell in Hflags. simpl in Hflags. apply Nat.eqb_eq.
      apply Hflags, in_map_iff. exists c. rewrite Hcell.
      split; [done|by apply list_elem_of_In].
    + intros Hfound b Hb. apply in_map_iff in Hb as (c & <- & Hc).
      apply list_elem_of_In in Hc.
      destruct (Hstored c Hc) as [cell Hcell]. rewrite Hcell. simpl.
      apply Nat.eqb_eq, (Hfound c cell Hc). by apply stored_cell_cellAt.
Qed.

Lemma allFound_on_stored_cells_witness :
  (∀ c, c ∈ [(0, 0); (0, 1)] →
     ∃ cell, (cellAt c field_2x2 store_2x2).1 = Normal (Some cell))
  ∧ ∃ b, isCoordinateCollectionAllFound [(0, 0); (0, 1)] field_2x2 store_2x2
         = (Normal b, store_2x2)
      ∧ (b = true ↔
         ∀ c cell, c ∈ [(0, 0); (0, 1)] →
           (cellAt c field_2x2 store_2x2).1 = Normal (Some cell) →
           length (Possibilities cell) = 1%nat).
Proof.
  assert (Hall : ∀ c : Z * Z, c ∈ [(0, 0); (0, 1)] →
            ∃ cell, (cellAt c field_2x2 store_2x2).1 = Normal (Some cell)).
  { intros c Hc. apply elem_of_cons in Hc as [->|Hc]; [by eexists|].
    apply elem_of_cons in Hc as [->|Hc]; [by eexists|].
    by apply elem_of_nil in Hc. }
  split; [exact Hall|].
  apply (allFound_on_stored_cells [(0, 0); (0, 1)] field_2x2 store_2x2 Hall).
Defined.

(** X8.  When some coordinate of the collection holds no cell (its row does
    not exist, or the row has no element at the column),
    [isCoordinateCollectionAllFound] raises [TypeError], whatever the other
    cells are, and leaves the store as it was; at such a coordinate [cellAt]
    alone may return [undefined] without raising. *)
Theorem allFound_raises_on_missing_cell (cc : CoordinateCollection)
    (g : GameField) σ (c : CellCoordinate) :
  c ∈ cc →
  (∀ cell, (cellAt c g σ).1 ≠ Normal (Some cell)) →
  isCoordinateCollectionAllFound cc g σ = (Throw TypeError, σ).
Proof.
  intros Hc Hnone. rewrite allFound_unfold, found_flags_missing; [done|].
  exists c. split; [done|].
  destruct (stored_cell σ g c) as [cell|] eqn:Hcell; [|done].
  apply stored_cell_cellAt in Hcell. by destruct (Hnone cell).
Qed.

Lemma allFound_raises_on_missing_cell_witness :
  (0, 7) ∈ [(0, 0); (0, 7)]
  ∧ (∀ cell, (cellAt (0, 7) field_1x1 store_1x1).1 ≠ Normal (Some cell))
  ∧ (cellAt (0, 7) field_1x1 store_1x1).1 = Normal None
  ∧ isCoordinateCollectionAllFound [(0, 0); (0, 7)] field_1x1 store_1x1
    = (Throw TypeError, store_1x1).
Proof.
  assert (Hin : (0, 7) ∈ [(0, 0); (0, 7)]) by (right; left).
  assert (Hnone : ∀ cell,
            (cellAt (0, 7) field_1x1 store_1x1).1 ≠ Normal (Some cell)).
  { intros cell Hcell. vm_compute in Hcell. discriminate. }
  split; [exact Hin|]. split; [exact Hnone|]. split; [by vm_compute|].
  apply (allFound_raises_on_missing_cell [(0, 0); (0, 7)] field_1x1
           store_1x1 (0, 7) Hin Hnone).
Defined.

(** X9.  On a [maxRow x maxCol] field, [isCoordinateCollectionAllFound] on
    [rowCollection (r, maxCol)] returns normally for every row index in
    [[0, maxRow)]: the collection [rowCollection] builds stays within the
    row. *)
Theorem allFound_on_rowCollection σ (g : GameField) (maxRow maxCol r : Z) :
  rectangular σ g maxRow maxCol →
  0 ≤ maxCol < two32 →
  0 ≤ r < maxRow →
  ∃ cc b, rowCollection r maxCol = Normal cc
    ∧ isCoordinateCollectionAllFound cc g σ = (Normal b, σ).
Proof.
  intros (_ & _ & Hrows) Hcol Hr.
  destruct (Hrows r Hr) as (row & Hrow & _ & _ & Hdense).
  exists (map (λ itm, (r, itm)) (seqZ 0 maxCol)).
  destruct (allFound_on_stored_cells_aux
              (map (λ itm, (r, itm)) (seqZ 0 maxCol)) g σ) as [b Hb].
  - intros c Hc. apply list_elem_of_In, in_map_iff in Hc as (k & <- & Hk).
    apply list_elem_of_In, elem_of_seqZ in Hk.
    unfold stored_cell. simpl. rewrite Hrow. apply Hdense. lia.
  - exists b. split; [by apply rowCollection_valid|done].
Qed.

Lemma allFound_on_rowCollection_witness :
  rectangular store_1x1 field_1x1 1 1
  ∧ 0 ≤ 1 < two32
  ∧ 0 ≤ 0 < 1
  ∧ ∃ cc b, rowCollection 0 1 = Normal cc
      ∧ isCoordinateCollectionAllFound cc field_1x1 store_1x1
        = (Normal b, store_1x1).
Proof.
  split; [apply rectangular_1x1|]. split; [unfold two32; lia|].
  split; [lia|].
  apply (allFound_on_rowCollection store_1x1 field_1x1 1 1 0).
  - apply rectangular_1x1.
  - unfold two32; lia.
  - lia.
Defined.

(** *** Writing a field: how [setCellAt] composes *)

Lemma arr_set_arr_set {A} (a : JsArray A) (k : Z) (v1 v2 : A) :
  arr_set (arr_set a k v1) k v2 = arr_set a k v2.
Proof.
  unfold arr_set. simpl. rewrite insert_insert_eq. f_equal.
  destruct (is_array_index k); simpl; [|done].
  destruct (Z.leb_spec (arr_length a) k) as [Hle|Hgt].
  - by destruct (Z.leb_spec (k + 1) k); [lia|].
  - by rewrite (proj2 (Z.leb_gt _ _) Hgt).
Qed.

Lemma arr_set_commute {A} (a : JsArray A) (k1 k2 : Z) (v1 v2 : A) :
  k1 ≠ k2 →
  arr_set (arr_set a k1 v1) k2 v2 = arr_set (arr_set a k2 v2) k1 v1.
Proof.
  intros Hne. unfold arr_set. simpl.
  rewrite (insert_insert_ne _ k2 k1) by done. f_equal.
  destruct (is_array_index k1), (is_array_index k2); simpl; try done.
  destruct (Z.leb_spec (arr_length a) k1), (Z.leb_spec (arr_length a) k2);
    repeat match goal with
           | |- context [?x <=? ?y] => destruct (Z.leb_spec x y)
           end; lia.
Qed.

Lemma arr_set_stored {A} (a : JsArray A) (k : Z) (v : A) :
  arr_wf a → arr_elems a !! k = Some v → arr_set a k v = a.
Proof.
  intros Hwf Hk. unfold arr_set. rewrite (insert_id _ _ _ Hk).
  assert (0 ≤ k < arr_length a) as [_ Hlt] by (apply Hwf; by rewrite Hk).
  rewrite (proj2 (Z.leb_gt _ _) Hlt), andb_false_r. by destruct a.
Qed.

(** [setCellAt] in terms of the row found at [c]'s row index. *)
Lemma setCellAt_cases (c : CellCoordinate) (g : GameField) v σ :
  setCellAt c g v σ =
    match arr_elems g !! c.1 with
    | Some l =>
        match heap σ !! l with
        | Some row =>
            (Normal tt, mkStore (<[l:=arr_set row c.2 v]> (heap σ)) (console σ))
        | None => (Throw TypeError, σ)
        end
    | None => (Throw TypeError, σ)
    end.
Proof.
  destruct (arr_elems g !! c.1) as [l|] eqn:Hg.
  - destruct (heap σ !! l) as [row|] eqn:Hl.
    + by apply setCellAt_row.
    + unfold setCellAt, store_elem, js_bind, arr_get, deref, coord.
      rewrite Hg. simpl. by rewrite Hl.
  - by apply setCellAt_no_row.
Qed.

(** X10.  Writing twice at one coordinate is writing the second cell: the
    outcome and the store after [setCellAt (c, g, v1)] followed by
    [setCellAt (c, g, v2)] are those of [setCellAt (c, g, v2)] alone. *)
Theorem setCellAt_twice (c : CellCoordinate) (g : GameField) (v1 v2 : Cell) σ :
  setCellAt c g v2 (setCellAt c g v1 σ).2 = setCellAt c g v2 σ.
Proof.
  rewrite !setCellAt_cases.
  destruct (arr_elems g !! c.1) as [l|]; [|done].
  destruct (heap σ !! l) as [row|] eqn:Hl; simpl; [|by rewrite Hl].
  by rewrite lookup_insert_eq, insert_insert_eq, arr_set_arr_set.
Qed.

(** X11.  Two writes that do not hit the same element commute: when both
    rows exist, and the two coordinates differ in the column or lie in
    different row arrays, the two orders of the two [setCellAt] calls give
    the same outcome and the same store. *)
Theorem setCellAt_commute (c1 c2 : CellCoordinate) (g : GameField)
    (v1 v2 : Cell) σ :
  is_Some (row_at σ g c1.1) →
  is_Some (row_at σ g c2.1) →
  c1.2 ≠ c2.2 ∨ arr_elems g !! c1.1 ≠ arr_elems g !! c2.1 →
  (setCellAt c1 g v1 ;;; setCellAt c2 g v2) σ
  = (setCellAt c2 g v2 ;;; setCellAt c1 g v1) σ.
Proof.
  unfold row_at. intros [row1 Hrow1] [row2 Hrow2] Hdistinct.
  destruct (arr_elems g !! c1.1) as [l1|] eqn:Hg1; [|done].
  destruct (arr_elems g !! c2.1) as [l2|] eqn:Hg2; [|done].
  unfold js_bind. rewrite !setCellAt_cases, Hg1, Hg2, Hrow1, Hrow2.
  rewrite !setCellAt_cases, Hg1, Hg2. simpl.
  destruct (decide (l1 = l2)) as [->|Hne].
  - assert (Hcol : c1.2 ≠ c2.2) by (destruct Hdistinct; congruence).
    rewrite Hrow1 in Hrow2. injection Hrow2 as <-.
    rewrite !lookup_insert_eq, !insert_insert_eq.
    by rewrite (arr_set_commute row1 c1.2 c2.2) by done.
  - rewrite !lookup_insert_ne by done. rewrite Hrow1, Hrow2.
    by rewrite (insert_insert_ne _ l2 l1) by done.
Qed.

Lemma setCellAt_commute_witness :
  is_Some (row_at store_2x2 field_2x2 (0, 0).1)
  ∧ is_Some (row_at store_2x2 field_2x2 (1, 0).1)
  ∧ ((0, 0).2 ≠ (1, 0).2
     ∨ arr_elems field_2x2 !! (0, 0).1 ≠ arr_elems field_2x2 !! (1, 0).1)
  ∧ (setCellAt (0, 0) field_2x2 (open_cell (0, 0)) ;;;
     setCellAt (1, 0) field_2x2 (fixed_one (1, 0))) store_2x2
    = (setCellAt (1, 0) field_2x2 (fixed_one (1, 0)) ;;;
       setCellAt (0, 0) field_2x2 (open_cell (0, 0))) store_2x2.
Proof.
  assert (H1 : is_Some (row_at store_2x2 field_2x2 (0, 0).1)) by by eexists.
  assert (H2 : is_Some (row_at store_2x2 field_2x2 (1, 0).1)) by by eexists.
  assert (H3 : (0, 0).2 ≠ (1, 0).2
               ∨ arr_elems field_2x2 !! (0, 0).1
                 ≠ arr_elems field_2x2 !! (1, 0).1).
  { right. by vm_compute. }
  split; [exact H1|]. split; [exact H2|]. split; [exact H3|].
  apply (setCellAt_commute (0, 0) (1, 0) field_2x2 (open_cell (0, 0))
           (fixed_one (1, 0)) store_2x2 H1 H2 H3).
Defined.

(** X12.  Writing back the cell that [cellAt] returns changes nothing: if
    [cellAt (c, g)] is [v] and the row array holds no element beyond its
    length, [setCellAt (c, g, v)] returns normally with the store as it
    was. *)
Theorem setCellAt_of_cellAt (c : CellCoordinate) (g : GameField) (v : Cell) σ :
  (cellAt c g σ).1 = Normal (Some v) →
  (∀ row, row_at σ g c.1 = Some row → arr_wf row) →
  setCellAt c g v σ = (Normal tt, σ).
Proof.
  intros Hcell Hwf.
  destruct (cellAt_Some_inv _ _ _ _ Hcell) as (l & row & Hg & Hl & Hv).
  rewrite setCellAt_cases, Hg, Hl.
  rewrite arr_set_stored; [|apply Hwf; unfold row_at; by rewrite Hg|done].
  rewrite (insert_id _ _ _ Hl). by destruct σ.
Qed.

Lemma setCellAt_of_cellAt_witness :
  (cellAt (0, 0) field_1x1 store_1x1).1 = Normal (Some (fixed_one (0, 0)))
  ∧ (∀ row, row_at store_1x1 field_1x1 (0, 0).1 = Some row → arr_wf row)
  ∧ setCellAt (0, 0) field_1x1 (fixed_one (0, 0)) store_1x1
    = (Normal tt, store_1x1).
Proof.
  assert (Hwf : ∀ row, row_at store_1x1 field_1x1 (0, 0).1 = Some row →
                  arr_wf row).
  { intros row Hrow. vm_compute in Hrow. injection Hrow as <-.
    apply (arr_of_list_wf [fixed_one (0, 0)]). }
  split; [by vm_compute|]. split; [exact Hwf|].
  apply (setCellAt_of_cellAt (0, 0) field_1x1 (fixed_one (0, 0)) store_1x1);
    [by vm_compute|exact Hwf].
Defined.

(** X13.  A write beyond the end of a row extends the row: when the column
    is an array index at or beyond the length of the row array,
    [setCellAt] returns normally, the row's length becomes the column plus
    one, [cellAt] returns the written cell there, and the positions between
    the old length and the column are holes, where [cellAt] returns
    [undefined]. *)
Theorem setCellAt_extends_row (c : CellCoordinate) (g : GameField) (v : Cell)
    σ (row : JsArray Cell) :
  row_at σ g c.1 = Some row →
  arr_wf row →
  arr_length row ≤ c.2 < two32 - 1 →
  0 ≤ arr_length row →
  ∃ σ' row', setCellAt c g v σ = (Normal tt, σ')
    ∧ row_at σ' g c.1 = Some row'
    ∧ arr_length row' = c.2 + 1
    ∧ arr_wf row'
    ∧ (cellAt c g σ').1 = Normal (Some v)
    ∧ ∀ j, arr_length row ≤ j < c.2 → (cellAt (c.1, j) g σ').1 = Normal None.
Proof.
  intros Hrow Hwf Hcol Hlen.
  assert (∃ l, arr_elems g !! c.1 = Some l ∧ heap σ !! l = Some row)
    as (l & Hg & Hl).
  { unfold row_at in Hrow. destruct (arr_elems g !! c.1) as [l|]; [|done].
    by exists l. }
  assert (Hlength : arr_length (arr_set row c.2 v) = c.2 + 1).
  { unfold arr_set, is_array_index. simpl.
    destruct (Z.leb_spec 0 c.2); [|lia].
    destruct (Z.ltb_spec c.2 (two32 - 1)); [|lia].
    by destruct (Z.leb_spec (arr_length row) c.2); [|lia]. }
  assert (Hrow' : row_at (mkStore (<[l:=arr_set row c.2 v]> (heap σ)) (console σ))
                    g c.1 = Some (arr_set row c.2 v)).
  { unfold row_at. rewrite Hg. simpl. by rewrite lookup_insert_eq. }
  eexists _, (arr_set row c.2 v).
  split; [by apply (setCellAt_row c g v σ l row)|].
  split; [exact Hrow'|]. split; [done|]. split; [|split].
  - intros k [x Hx]. rewrite Hlength. simpl in Hx.
    destruct (decide (c.2 = k)) as [<-|Hne]; [lia|].
    rewrite lookup_insert_ne in Hx by done.
    assert (0 ≤ k < arr_length row) by (apply Hwf; by rewrite Hx). lia.
  - rewrite cellAt_row_at, Hrow'. simpl. by rewrite lookup_insert_eq.
  - intros j Hj. rewrite cellAt_row_at. simpl. rewrite Hrow'. simpl.
    rewrite lookup_insert_ne by lia.
    destruct (arr_elems row !! j) as [x|] eqn:Hx; [|done].
    assert (0 ≤ j < arr_length row) by (apply Hwf; by rewrite Hx). lia.
Qed.

Lemma setCellAt_extends_row_witness :
  row_at store_1x1 field_1x1 (0, 3).1 = Some (arr_of_list [fixed_one (0, 0)])
  ∧ arr_wf (arr_of_list [fixed_one (0, 0)])
  ∧ arr_length (arr_of_list [fixed_one (0, 0)]) ≤ (0, 3).2 < two32 - 1
  ∧ ∃ σ' row', setCellAt (0, 3) field_1x1 (open_cell (0, 3)) store_1x1
               = (Normal tt, σ')
      ∧ row_at σ' field_1x1 (0, 3).1 = Some row'
      ∧ arr_length row' = (0, 3).2 + 1
      ∧ arr_wf row'
      ∧ (cellAt (0, 3) field_1x1 σ').1 = Normal (Some (open_cell (0, 3)))
      ∧ ∀ j, arr_length (arr_of_list [fixed_one (0, 0)]) ≤ j < (0, 3).2 →
          (cellAt ((0, 3).1, j) field_1x1 σ').1 = Normal None.
Proof.
  split; [by vm_compute|]. split; [apply arr_of_list_wf|].
  split; [by vm_compute|].
  apply (setCellAt_extends_row (0, 3) field_1x1 (open_cell (0, 3)) store_1x1
           (arr_of_list [fixed_one (0, 0)])).
  - by vm_compute.
  - apply arr_of_list_wf.
  - by vm_compute.
  - by vm_compute.
Defined.

(** X14.  [cellAt] and [setCellAt] raise on the same coordinates: each
    raises exactly when no row array is found at the row index, the error
    is [TypeError], and a call that raises leaves the store as it was. *)
Theorem cellAt_setCellAt_raise_together (c : CellCoordinate) (g : GameField)
    (v : Cell) σ :
  (fails (cellAt c g σ).1 ↔ row_at σ g c.1 = None)
  ∧ (fails (setCellAt c g v σ).1 ↔ row_at σ g c.1 = None)
  ∧ (row_at σ g c.1 = None →
       cellAt c g σ = (Throw TypeError, σ)
       ∧ setCellAt c g v σ = (Throw TypeError, σ)).
Proof.
  rewrite cellAt_row_at, setCellAt_cases. unfold row_at.
  destruct (arr_elems g !! c.1) as [l|]; simpl.
  - destruct (heap σ !! l) as [row|]; simpl.
    + split; [|split]; [split; [by intros [e He]|done]..|done].
    + split; [|split]; [split; [done|by eexists]..|done].
  - split; [|split]; [split; [done|by eexists]..|done].
Qed.

(** X15.  A write at a coordinate in bounds keeps the shape of the field,
    and no write creates or removes a row array or touches the console: on
    a [maxRow x maxCol] field, after [setCellAt] at [c] within
    [[0,maxRow) x [0,maxCol)] the field is still [maxRow x maxCol], the
    heap holds the same row arrays and the console is unchanged. *)
Theorem setCellAt_keeps_shape (c : CellCoordinate) (g : GameField) (v : Cell)
    σ (maxRow maxCol : Z) :
  rectangular σ g maxRow maxCol →
  0 ≤ c.1 < maxRow → 0 ≤ c.2 < maxCol →
  rectangular (setCellAt c g v σ).2 g maxRow maxCol
  ∧ dom (heap (setCellAt c g v σ).2) = dom (heap σ)
  ∧ console (setCellAt c g v σ).2 = console σ.
Proof.
  intros (Hlen & Hwf & Hrows) Hr Hc.
  destruct (Hrows _ Hr) as (row & Hrow & Hrowlen & Hrowwf & Hdense).
  unfold row_at in Hrow.
  destruct (arr_elems g !! c.1) as [l|] eqn:Hg; [|done].
  rewrite setCellAt_cases, Hg, Hrow. simpl.
  assert (Hkeep : arr_length (arr_set row c.2 v) = arr_length row).
  { unfold arr_set. simpl.
    rewrite (proj2 (Z.leb_gt (arr_length row) c.2)) by lia.
    by rewrite andb_false_r. }
  split; [|split; [|done]].
  - split; [done|]. split; [done|]. intros r' Hr'.
    destruct (Hrows _ Hr') as (row' & Hrow' & Hlen' & Hwf' & Hdense').
    unfold row_at in *. simpl.
    destruct (arr_elems g !! r') as [l'|] eqn:Hg'; [|done].
    destruct (decide (l = l')) as [<-|Hne].
    + rewrite lookup_insert_eq. rewrite Hrow in Hrow'. injection Hrow' as <-.
      exists (arr_set row c.2 v). split; [done|]. split; [congruence|].
      split.
      * intros k [x Hx]. rewrite Hkeep. simpl in Hx.
        destruct (decide (c.2 = k)) as [<-|Hk]; [lia|].
        rewrite lookup_insert_ne in Hx by done. apply Hrowwf. by rewrite Hx.
      * intros k Hk. simpl.
        destruct (decide (c.2 = k)) as [<-|Hck].
        -- rewrite lookup_insert_eq. by eexists.
        -- rewrite lookup_insert_ne by done. by apply Hdense.
    + rewrite lookup_insert_ne by done. by exists row'.
  - apply dom_insert_lookup_L. by rewrite Hrow.
Qed.

Lemma setCellAt_keeps_shape_witness :
  rectangular store_1x1 field_1x1 1 1
  ∧ 0 ≤ (0, 0).1 < 1 ∧ 0 ≤ (0, 0).2 < 1
  ∧ rectangular (setCellAt (0, 0) field_1x1 (open_cell (0, 0)) store_1x1).2
      field_1x1 1 1
  ∧ dom (heap (setCellAt (0, 0) field_1x1 (open_cell (0, 0)) store_1x1).2)
    = dom (heap store_1x1)
  ∧ console (setCellAt (0, 0) field_1x1 (open_cell (0, 0)) store_1x1).2
    = console store_1x1.
Proof.
  split; [apply rectangular_1x1|]. split; [simpl; lia|]. split; [simpl; lia|].
  apply (setCellAt_keeps_shape (0, 0) field_1x1 (open_cell (0, 0)) store_1x1 1 1).
  - apply rectangular_1x1.
  - simpl; lia.
  - simpl; lia.
Defined.

(** *** [initializeGame]: outcome, console and settings *)

Lemma placeCell_found_no_row (g : GameField) (cell : Cell) σ :
  cellIsFound cell = true →
  arr_elems g !! (Coordinates cell).1 = None →
  placeCell g cell σ =
    (Throw TypeError,
     mkStore (heap σ)
       ((console σ ++ [LogPlacingCell cell])
        ++ [LogCoordinate (Coordinates cell).1 (Coordinates cell).2])).
Proof.
  intros Hfound Hrow. unfold placeCell. rewrite Hfound.
  unfold js_bind, console_write. simpl.
  by rewrite setCellAt_no_row.
Qed.

(** The [forEach] of [initializeGame] on a field without rows. *)
Lemma forEach_placeCell_no_rows (n : Z) (content : list Cell) σ :
  forEach (placeCell (mkArray n ∅)) content σ
  = (if existsb cellIsFound content then Throw TypeError else Normal tt,
     mkStore (heap σ) (console σ ++ console_trace content)).
Proof.
  revert σ. induction content as [|cell content IH]; intros σ.
  - simpl. rewrite app_nil_r. by destruct σ.
  - simpl. destruct (cellIsFound cell) eqn:Hfound.
    + unfold js_bind.
      rewrite (placeCell_found_no_row _ _ _ Hfound) by apply lookup_empty.
      simpl. by rewrite <- app_assoc.
    + unfold js_bind at 1. rewrite (placeCell_unfound _ _ _ Hfound).
      rewrite IH. simpl. by rewrite <- !app_assoc.
Qed.

Lemma initializeGame_valid (content : list Cell) (settings : GameSettings) σ :
  0 ≤ MAXROW settings < two32 →
  initializeGame content settings σ
  = (if existsb cellIsFound content then Throw TypeError
     else Normal (mkArray (MAXROW settings) ∅),
     mkStore (heap σ) (console σ ++ console_trace content)).
Proof.
  intros Hrow. unfold initializeGame, js_lift.
  unfold js_bind at 1. rewrite (new_Array_valid _ Hrow).
  unfold js_bind at 1. rewrite arr_map_holes.
  unfold js_bind. rewrite forEach_placeCell_no_rows.
  by destruct (existsb cellIsFound content).
Qed.

(** X16.  The complete outcome of [initializeGame].  It raises [RangeError]
    when [MAXROW] is not a legal array length; otherwise it raises
    [TypeError] as soon as the content holds a cell with exactly one
    possibility, and returns a field of [MAXROW] holes when it holds none.
    In no case is a cell placed: the heap is left as it was. *)
Theorem initializeGame_outcome (content : list Cell) (settings : GameSettings) σ :
  heap (initializeGame content settings σ).2 = heap σ
  ∧ (initializeGame content settings σ).1
    = if decide (0 ≤ MAXROW settings < two32) then
        if existsb cellIsFound content then Throw TypeError
        else Normal (mkArray (MAXROW settings) ∅)
      else Throw RangeError.
Proof.
  destruct (decide (0 ≤ MAXROW settings < two32)) as [Hrow|Hrow].
  - by rewrite (initializeGame_valid _ _ _ Hrow).
  - by rewrite (initializeGame_RangeError _ _ _ Hrow).
Qed.

(** X17.  What [initializeGame] writes to the console, for a legal
    [MAXROW]: for each cell in turn the line that announces it, followed by
    the error line when the cell is not found; at the first found cell the
    line with its coordinates is the last one written. *)
Theorem initializeGame_console (content : list Cell) (settings : GameSettings) σ :
  0 ≤ MAXROW settings < two32 →
  console (initializeGame content settings σ).2
  = console σ ++ console_trace content.
Proof. intros Hrow. by rewrite (initializeGame_valid _ _ _ Hrow). Qed.

Lemma initializeGame_console_witness :
  0 ≤ MAXROW binarioGameSettings < two32
  ∧ console (initializeGame [open_cell (0, 0); fixed_one (2, 3); fixed_one (0, 0)]
               binarioGameSettings empty_store).2
    = console empty_store
      ++ [LogPlacingCell (open_cell (0, 0)); ErrorSeveralPossibilities;
          LogPlacingCell (fixed_one (2, 3)); LogCoordinate 2 3].
Proof.
  split; [by vm_compute|].
  apply (initializeGame_console
           [open_cell (0, 0); fixed_one (2, 3); fixed_one (0, 0)]
           binarioGameSettings empty_store).
  by vm_compute.
Defined.

(** X18.  [initializeGame] reads [MAXROW] only: two settings objects with
    the same [MAXROW] give the same outcome and the same store, whatever
    their [NAME], [CELLRESULTS] and [MAXCOL] (an illegal [MAXCOL] raises
    nothing). *)
Theorem initializeGame_reads_MAXROW_only (content : list Cell)
    (s1 s2 : GameSettings) σ :
  MAXROW s1 = MAXROW s2 →
  initializeGame content s1 σ = initializeGame content s2 σ.
Proof.
  intros Heq. destruct (decide (0 ≤ MAXROW s1 < two32)) as [Hrow|Hrow].
  - rewrite (initializeGame_valid _ s1 _ Hrow).
    rewrite Heq in Hrow. rewrite (initializeGame_valid _ s2 _ Hrow).
    by rewrite Heq.
  - rewrite (initializeGame_RangeError s1 _ _ Hrow).
    rewrite Heq in Hrow. by rewrite (initializeGame_RangeError s2 _ _ Hrow).
Qed.

Lemma initializeGame_reads_MAXROW_only_witness :
  MAXROW binarioGameSettings = MAXROW (mkGameSettings "other" [] 12 (-1))
  ∧ initializeGame binarioExample binarioGameSettings empty_store
    = initializeGame binarioExample (mkGameSettings "other" [] 12 (-1))
        empty_store.
Proof.
  split; [reflexivity|].
  apply (initializeGame_reads_MAXROW_only binarioExample binarioGameSettings
           (mkGameSettings "other" [] 12 (-1)) empty_store).
  reflexivity.
Defined.

(** *** The schemas and the helpers *)

Lemma rowcolIndexSchema_accepts (n : Z) :
  Schema.rowcolIndexSchema n = true ↔ 1 ≤ n ≤ 50.
Proof.
  unfold Schema.rowcolIndexSchema, Schema.z_number_max_positive.
  rewrite andb_true_iff, Z.leb_le, Z.ltb_lt. lia.
Qed.






(** *** Placing the initial cells on a field that has its rows *)

Lemma cellAt_same_heap (c : CellCoordinate) (g : GameField) σ1 σ2 :
  same_heap σ1 σ2 → (cellAt c g σ1).1 = (cellAt c g σ2).1.
Proof.
  unfold same_heap. intros Hheap. rewrite !cellAt_row_at. unfold row_at.
  rewrite Hheap. destruct (arr_elems g !! c.1) as [l|]; [|done].
  by destruct (heap σ2 !! l).
Qed.

Lemma in_bounds_same_heap (c : CellCoordinate) (g : GameField) σ1 σ2 :
  same_heap σ1 σ2 → in_bounds σ1 g c ↔ in_bounds σ2 g c.
Proof.
  unfold same_heap, in_bounds, row_at. intros Hheap. by rewrite Hheap.
Qed.

Lemma placeCell_found_row (g : GameField) (cell : Cell) σ l row :
  cellIsFound cell = true →
  arr_elems g !! (Coordinates cell).1 = Some l →
  heap σ !! l = Some row →
  placeCell g cell σ =
    (Normal tt,
     mkStore (<[l:=arr_set row (Coordinates cell).2 cell]> (heap σ))
       ((console σ ++ [LogPlacingCell cell])
        ++ [LogCoordinate (Coordinates cell).1 (Coordinates cell).2])).
Proof.
  intros Hfound Hg Hl. unfold placeCell. rewrite Hfound.
  unfold js_bind, console_write. simpl.
  by rewrite (setCellAt_row _ _ _ _ l row).
Qed.

(** A write within the length of the row keeps the bounds of the field. *)
Lemma in_bounds_after_write (c : CellCoordinate) (g : GameField) σ σ' l row k v :
  heap σ !! l = Some row →
  heap σ' = <[l:=arr_set row k v]> (heap σ) →
  0 ≤ k < arr_length row →
  in_bounds σ' g c ↔ in_bounds σ g c.
Proof.
  intros Hl Hheap Hk.
  assert (Hlen : arr_length (arr_set row k v) = arr_length row).
  { unfold arr_set. simpl.
    rewrite (proj2 (Z.leb_gt (arr_length row) k)) by lia.
    by rewrite andb_false_r. }
  unfold in_bounds, row_at. rewrite Hheap.
  destruct (arr_elems g !! c.1) as [l'|]; [|done].
  destruct (decide (l = l')) as [<-|Hne].
  - rewrite lookup_insert_eq, Hl. split.
    + intros [Hr (row' & [= <-] & Hc)]. rewrite Hlen in Hc.
      split; [done|]. by exists row.
    + intros [Hr (row' & [= <-] & Hc)]. split; [done|].
      exists (arr_set row k v). by rewrite Hlen.
  - by rewrite lookup_insert_ne.
Qed.

Lemma last_placed_cons (cell : Cell) (content : list Cell) (c : CellCoordinate) :
  last_placed (cell :: content) c =
    match last_placed content c with
    | Some later => Some later
    | None =>
        if cellIsFound cell && bool_decide (Coordinates cell = c)
        then Some cell else None
    end.
Proof.
  unfold last_placed. simpl.
  destruct (cellIsFound cell && bool_decide (Coordinates cell = c)).
  - rewrite last_cons. by destruct (last _).
  - by destruct (last _).
Qed.

(** X21.  On a field whose row arrays are pairwise distinct, if every found
    cell of the content has its coordinate in bounds, the [forEach] of
    [initializeGame] places them all without raising, and the last write
    wins: afterwards [cellAt] at a coordinate in bounds returns the last
    found cell of the content that carries this coordinate, or what it
    returned before when there is none. *)
Theorem forEach_placeCell_last_wins (g : GameField) (content : list Cell) σ :
  rows_distinct g →
  (∀ cell, cell ∈ content → cellIsFound cell = true →
     in_bounds σ g (Coordinates cell)) →
  ∃ σ', forEach (placeCell g) content σ = (Normal tt, σ')
    ∧ ∀ c, in_bounds σ g c →
        (cellAt c g σ').1 =
          match last_placed content c with
          | Some cell => Normal (Some cell)
          | None => (cellAt c g σ).1
          end.
Proof.
  intros Hdistinct. revert σ.
  induction content as [|cell content IH]; intros σ Hcontent.
  - exists σ. by split.
  - simpl. unfold js_bind.
    destruct (cellIsFound cell) eqn:Hfound.
    + (* the cell is written, then the others *)
      assert (Hin : in_bounds σ g (Coordinates cell))
        by (apply Hcontent; [left|done]).
      destruct (in_bounds_row _ _ _ Hin) as (l & row & Hg & Hl & Hk).
      rewrite (placeCell_found_row _ _ _ l row Hfound Hg Hl).
      set (σ1 := mkStore _ _).
      assert (Hbounds : ∀ c, in_bounds σ1 g c ↔ in_bounds σ g c).
      { intros c. by apply (in_bounds_after_write c g σ σ1 l row
                              (Coordinates cell).2 cell). }
      destruct (IH σ1) as (σ' & Hrun & Hread).
      { intros cell' Hcell' Hfound'. apply Hbounds, Hcontent; [by right|done]. }
      exists σ'. split; [done|]. intros c Hc.
      rewrite (Hread c) by by apply Hbounds.
      rewrite last_placed_cons, Hfound. simpl.
      destruct (last_placed content c) as [later|]; [done|].
      rewrite (cellAt_after_write c g σ σ1 l row (Coordinates cell).2 cell Hl
                 eq_refl).
      destruct (decide (Coordinates cell = c)) as [<-|Hne].
      * rewrite bool_decide_eq_true_2 by done. by rewrite decide_True.
      * rewrite bool_decide_eq_false_2 by done.
        rewrite decide_False; [done|]. intros [Hg' Hcol]. apply Hne.
        destruct Hin as [Hr _], Hc as [Hr' _].
        pose proof (Hdistinct _ _ _ Hr Hr' Hg Hg') as Hrow.
        destruct (Coordinates cell), c. simpl in *. by subst.
    + (* the cell is skipped *)
      rewrite (placeCell_unfound _ _ _ Hfound).
      set (σ1 := mkStore _ _).
      assert (Hsame : same_heap σ1 σ) by done.
      destruct (IH σ1) as (σ' & Hrun & Hread).
      { intros cell' Hcell' Hfound'.
        apply (in_bounds_same_heap _ _ _ _ Hsame), Hcontent; [by right|done]. }
      exists σ'. split; [done|]. intros c Hc.
      rewrite (Hread c) by by apply (in_bounds_same_heap _ _ _ _ Hsame).
      rewrite last_placed_cons, Hfound. simpl.
      destruct (last_placed content c); [done|].
      by apply cellAt_same_heap.
Qed.

Lemma forEach_placeCell_last_wins_witness :
  let content := [fixed_one (1, 0); open_cell (0, 1);
                  mkCell [CNum 0] true (1, 0)] in
  rows_distinct field_2x2
  ∧ (∀ cell, cell ∈ content → cellIsFound cell = true →
       in_bounds store_2x2 field_2x2 (Coordinates cell))
  ∧ ∃ σ', forEach (placeCell field_2x2) content store_2x2 = (Normal tt, σ')
      ∧ ∀ c, in_bounds store_2x2 field_2x2 c →
          (cellAt c field_2x2 σ').1 =
            match last_placed content c with
            | Some cell => Normal (Some cell)
            | None => (cellAt c field_2x2 store_2x2).1
            end.
Proof.
  intros content.
  assert (Hcontent : ∀ cell, cell ∈ content → cellIsFound cell = true →
            in_bounds store_2x2 field_2x2 (Coordinates cell)).
  { intros cell Hcell Hfound.
    assert (Hrow : in_bounds store_2x2 field_2x2 (1, 0)).
    { split; [done|].
      exists (arr_of_list [open_cell (1, 0); open_cell (1, 1)]).
      by vm_compute. }
    apply elem_of_cons in Hcell as [->|Hcell]; [exact Hrow|].
    apply elem_of_cons in Hcell as [->|Hcell]; [discriminate|].
    apply elem_of_cons in Hcell as [->|Hcell]; [exact Hrow|].
    by apply elem_of_nil in Hcell. }
  split; [apply rows_distinct_2x2|]. split; [exact Hcontent|].
  apply (forEach_placeCell_last_wins field_2x2 content store_2x2).
  - apply rows_distinct_2x2.
  - exact Hcontent.
Defined.

(** *** The earlier helpers of [App.Types.tsx] *)

(** X22.  The collections of [App.Types.tsx] count from 1: for a row index
    in [1 .. 50] and a constant [MAXROW] in [0 .. 50], [rowCollection (r)]
    is [(r,1) .. (r,MAXROW)] and [colCollection (r)] is
    [(1,r) .. (MAXROW,r)], both of length [MAXROW]; every coordinate in them
    passes [CellCoordinateSchema], and they are a row and a column
    collection. *)
Theorem AppTypes_collections_count_from_one (MAXROW r : Z) :
  0 ≤ MAXROW ≤ 50 → 1 ≤ r ≤ 50 →
  ∃ rows cols,
    AppTypes.rowCollection MAXROW r = Normal rows
    ∧ AppTypes.colCollection MAXROW r = Normal cols
    ∧ length rows = Z.to_nat MAXROW
    ∧ length cols = Z.to_nat MAXROW
    ∧ (∀ k, 0 ≤ k < MAXROW →
         rows !! Z.to_nat k = Some (r, k + 1)
         ∧ cols !! Z.to_nat k = Some (k + 1, r))
    ∧ (∀ c, c ∈ rows ∨ c ∈ cols → Schema.CellCoordinateSchema c = true)
    ∧ isRowCollection rows = true
    ∧ isColumnCollection cols = true.
Proof.
  intros Hmax Hr.
  exists (map (λ itm, (r, itm + 1)) (seqZ 0 MAXROW)),
         (map (λ itm, (itm + 1, r)) (seqZ 0 MAXROW)).
  assert (Hlen : 0 ≤ MAXROW < two32) by (unfold two32; lia).
  unfold AppTypes.rowCollection, AppTypes.colCollection.
  rewrite !(new_Array_valid _ Hlen). unfold arr_keys. simpl.
  split; [done|]. split; [done|].
  rewrite !length_map, !length_seqZ. split; [done|]. split; [done|].
  split; [|split; [|split]].
  - intros k Hk. split.
    + by apply (lookup_map_seqZ (λ itm, (r, itm + 1))).
    + by apply (lookup_map_seqZ (λ itm, (itm + 1, r))).
  - intros c [Hc|Hc];
      apply list_elem_of_In, in_map_iff in Hc as (k & <- & Hk);
      apply list_elem_of_In, elem_of_seqZ in Hk;
      unfold Schema.CellCoordinateSchema; simpl;
      apply andb_true_iff; split; apply rowcolIndexSchema_accepts; lia.
  - apply isRowCollection_iff. intros a b Ha Hb.
    apply list_elem_of_In, in_map_iff in Ha as (x & <- & _).
    by apply list_elem_of_In, in_map_iff in Hb as (y & <- & _).
  - apply isColumnCollection_iff. intros a b Ha Hb.
    apply list_elem_of_In, in_map_iff in Ha as (x & <- & _).
    by apply list_elem_of_In, in_map_iff in Hb as (y & <- & _).
Qed.

Lemma AppTypes_collections_count_from_one_witness :
  0 ≤ 12 ≤ 50 ∧ 1 ≤ 3 ≤ 50
  ∧ ∃ rows cols,
      AppTypes.rowCollection 12 3 = Normal rows
      ∧ AppTypes.colCollection 12 3 = Normal cols
      ∧ length rows = Z.to_nat 12
      ∧ length cols = Z.to_nat 12
      ∧ (∀ k, 0 ≤ k < 12 →
           rows !! Z.to_nat k = Some (3, k + 1)
           ∧ cols !! Z.to_nat k = Some (k + 1, 3))
      ∧ (∀ c, c ∈ rows ∨ c ∈ cols → Schema.CellCoordinateSchema c = true)
      ∧ isRowCollection rows = true
      ∧ isColumnCollection cols = true.
Proof.
  split; [lia|]. split; [lia|].
  apply (AppTypes_collections_count_from_one 12 3); lia.
Defined.

Lemma integer_value_Some (q : Q) (n : Z) :
  AppTypes.integer_value q = Some n → Qeq q (inject_Z n).
Proof.
  unfold AppTypes.integer_value.
  destruct (Qeq_bool q (inject_Z (Qfloor q))) eqn:Heq; [|done].
  intros [= <-]. by apply Qeq_bool_iff.
Qed.

Lemma integer_value_one (q : Q) :
  Qeq q 1 → AppTypes.integer_value q = Some 1.
Proof.
  intros Hq. unfold AppTypes.integer_value.
  assert (Hfloor : Qfloor q = 1).
  { rewrite (Qfloor_comp _ _ Hq). reflexivity. }
  rewrite Hfloor. by rewrite (proj2 (Qeq_bool_iff q (inject_Z 1)) Hq).
Qed.

Lemma AppTypes_Array_of_one_slot_aux (q : Q) (p : JsArray CellContent) :
  AppTypes.Array_of (CNum q) = Normal p → arr_length p = 1 → Qeq q 1.
Proof.
  simpl. destruct (AppTypes.integer_value q) as [n|] eqn:Hn; [|done].
  unfold new_Array. destruct ((0 <=? n) && (n <? two32)); [|done].
  intros [= <-]. simpl. intros ->. by apply integer_value_Some.
Qed.

(** X23.  [Array(content)] has exactly one slot when the content is a string
    (of any length) or the number 1, and in no other case; for a string the
    slot holds the string, for the number 1 it is a hole and holds
    nothing. *)
Theorem AppTypes_Array_of_one_slot (content : CellContent)
    (p : JsArray CellContent) :
  AppTypes.Array_of content = Normal p →
  (arr_length p = 1 ↔
     (∃ s, content = CStr s) ∨ (∃ q, content = CNum q ∧ Qeq q 1))
  ∧ (∀ s, content = CStr s → arr_get p 0 = Some (CStr s))
  ∧ (∀ q, content = CNum q → arr_elems p = ∅).
Proof.
  destruct content as [s|q]; simpl.
  - intros [= <-]. split; [|split].
    + split; [intros _; left; by exists s|done].
    + by intros s' [= <-].
    + by intros q [=].
  - destruct (AppTypes.integer_value q) as [n|] eqn:Hn; [|done].
    unfold new_Array. destruct ((0 <=? n) && (n <? two32)); [|done].
    intros [= <-]. simpl. apply integer_value_Some in Hn.
    split; [|split].
    + split.
      * intros ->. right. by exists q.
      * intros [[s [=]]|(q' & [= <-] & Hq)].
        rewrite Hq in Hn. unfold Qeq in Hn. simpl in Hn. lia.
    + by intros s [=].
    + done.
Qed.

Lemma AppTypes_Array_of_one_slot_witness :
  AppTypes.Array_of (CNum 1) = Normal (mkArray 1 ∅)
  ∧ (arr_length (mkArray (A:=CellContent) 1 ∅) = 1 ↔
       (∃ s, CNum 1 = CStr s) ∨ (∃ q, CNum 1 = CNum q ∧ Qeq q 1))
  ∧ (∀ s, CNum 1 = CStr s → arr_get (mkArray (A:=CellContent) 1 ∅) 0 = Some (CStr s))
  ∧ (∀ q, CNum 1 = CNum q → arr_elems (mkArray (A:=CellContent) 1 ∅) = ∅).
Proof.
  split; [reflexivity|].
  apply (AppTypes_Array_of_one_slot (CNum 1) (mkArray 1 ∅)). reflexivity.
Defined.

Lemma AppTypes_placeNewCell_not_found (content : CellContent) (g : GameField)
    (c : CellCoordinate) σ p :
  AppTypes.Array_of content = Normal p → arr_length p ≠ 1 →
  AppTypes.heap (AppTypes.placeNewCell content g c σ).2 = AppTypes.heap σ
  ∧ (AppTypes.placeNewCell content g c σ).1 = Normal tt.
Proof.
  intros Hp Hlen. unfold AppTypes.placeNewCell. rewrite Hp.
  unfold AppTypes.cellIsFound. simpl.
  by rewrite (proj2 (Z.eqb_neq _ _) Hlen).
Qed.

(** X24.  [initializeGame (content, cc, g)] of [App.Types.tsx] with a number
    other than 1 as content places nothing, for it creates each cell from
    [Array(content)], an array of that length: the heap is left as it was.
    When the number is a legal array length (Binario's 0 is one) the call
    returns normally; when it is not (negative, fractional or too large)
    and [cc] is not empty, it raises [RangeError]. *)
Theorem AppTypes_initializeGame_number (q : Q) (cc : CoordinateCollection)
    (g : GameField) σ :
  ¬ Qeq q 1 →
  AppTypes.heap (AppTypes.initializeGame (CNum q) cc g σ).2 = AppTypes.heap σ
  ∧ (∀ p, AppTypes.Array_of (CNum q) = Normal p →
       (AppTypes.initializeGame (CNum q) cc g σ).1 = Normal tt)
  ∧ (∀ e, AppTypes.Array_of (CNum q) = Throw e → cc ≠ [] →
       e = RangeError
       ∧ AppTypes.initializeGame (CNum q) cc g σ = (Throw RangeError, σ)).
Proof.
  intros Hq. destruct (AppTypes.Array_of (CNum q)) as [p|e] eqn:Hp.
  - assert (Hlen : arr_length p ≠ 1).
    { intros Hlen. apply Hq, (AppTypes_Array_of_one_slot_aux q p Hp Hlen). }
    assert (Hrun : ∀ σ0,
              AppTypes.heap (AppTypes.initializeGame (CNum q) cc g σ0).2
              = AppTypes.heap σ0
              ∧ (AppTypes.initializeGame (CNum q) cc g σ0).1 = Normal tt).
    { induction cc as [|c cc IH]; intros σ0; [done|]. simpl.
      destruct (AppTypes_placeNewCell_not_found (CNum q) g c σ0 p Hp Hlen)
        as [Hheap Hres].
      destruct (AppTypes.placeNewCell (CNum q) g c σ0) as [[[]|e] σ1];
        simpl in *; [|done].
      destruct (IH σ1) as [Hheap' Hres']. split; [congruence|done]. }
    destruct (Hrun σ) as [Hheap Hres].
    split; [done|]. split; [done|]. by intros e [=].
  - assert (He : e = RangeError).
    { simpl in Hp. destruct (AppTypes.integer_value q) as [n|];
        [|by injection Hp as <-].
      unfold new_Array in Hp.
      destruct ((0 <=? n) && (n <? two32)); [done|by injection Hp as <-]. }
    destruct cc as [|c cc]; [by split; [|split; [|intros ? _ ?]]|].
    simpl. unfold AppTypes.placeNewCell. rewrite Hp. simpl.
    split; [done|]. split; [done|]. intros e' [= <-] _. by subst.
Qed.

Lemma AppTypes_initializeGame_number_witness :
  ¬ Qeq 0 1
  ∧ AppTypes.heap
      (AppTypes.initializeGame (CNum 0) [(1, 1); (1, 2)] field_1x1
         (AppTypes.mkStore ∅ [])).2
    = AppTypes.heap (AppTypes.mkStore ∅ [])
  ∧ (∀ p, AppTypes.Array_of (CNum 0) = Normal p →
       (AppTypes.initializeGame (CNum 0) [(1, 1); (1, 2)] field_1x1
          (AppTypes.mkStore ∅ [])).1 = Normal tt)
  ∧ (∀ e, AppTypes.Array_of (CNum 0) = Throw e → [(1, 1); (1, 2)] ≠ [] →
       e = RangeError
       ∧ AppTypes.initializeGame (CNum 0) [(1, 1); (1, 2)] field_1x1
           (AppTypes.mkStore ∅ [])
         = (Throw RangeError, AppTypes.mkStore ∅ [])).
Proof.
  split; [done|].
  apply (AppTypes_initializeGame_number 0 [(1, 1); (1, 2)] field_1x1
           (AppTypes.mkStore ∅ [])).
  done.
Defined.

Lemma AppTypes_cellAt_after_write (c' : CellCoordinate) (g : GameField)
    (σ σ' : AppTypes.Store) l row k v :
  AppTypes.heap σ !! l = Some row →
  AppTypes.heap σ' = <[l:=arr_set row k v]> (AppTypes.heap σ) →
  AppTypes.cellAt c' g σ' =
    if decide (arr_elems g !! c'.1 = Some l ∧ c'.2 = k)
    then Normal (Some v)
    else AppTypes.cellAt c' g σ.
Proof.
  intros Hl Hheap. unfold AppTypes.cellAt, arr_get, coord. rewrite Hheap.
  destruct (arr_elems g !! c'.1) as [l'|] eqn:Hg.
  - destruct (decide (l' = l)) as [->|Hne].
    + rewrite lookup_insert_eq, Hl. simpl.
      destruct (decide (c'.2 = k)) as [->|Hk].
      * rewrite decide_True by done. by rewrite lookup_insert_eq.
      * rewrite decide_False by (intros [_ ?]; done).
        by rewrite lookup_insert_ne.
    + rewrite lookup_insert_ne by done.
      by rewrite decide_False by (intros [[= ?] _]; done).
  - by rewrite decide_False by (intros [? _]; done).
Qed.

Lemma AppTypes_placeNewCell_found (content : CellContent) (g : GameField)
    (c : CellCoordinate) σ p l row :
  AppTypes.Array_of content = Normal p → arr_length p = 1 →
  arr_elems g !! c.1 = Some l → AppTypes.heap σ !! l = Some row →
  ∃ σ', AppTypes.placeNewCell content g c σ = (Normal tt, σ')
    ∧ AppTypes.heap σ'
      = <[l:=arr_set row c.2 (AppTypes.mkCell p true c)]> (AppTypes.heap σ).
Proof.
  intros Hp Hlen Hg Hl. unfold AppTypes.placeNewCell. rewrite Hp.
  unfold AppTypes.cellIsFound, AppTypes.setCellAt, arr_get, coord. simpl.
  rewrite Hlen, Hg, Hl. simpl. by eexists.
Qed.

(** X25.  [initializeGame (content, cc, g)] of [App.Types.tsx] places a cell
    at every coordinate of [cc] when [Array(content)] has one slot and the
    row arrays at these coordinates exist: it returns normally, and
    afterwards each coordinate of [cc] holds a fixed cell whose
    possibilities are the array [Array(content)]. *)
Theorem AppTypes_initializeGame_places (content : CellContent)
    (cc : CoordinateCollection) (g : GameField) σ (p : JsArray CellContent) :
  AppTypes.Array_of content = Normal p →
  arr_length p = 1 →
  (∀ c, c ∈ cc → is_Some (AppTypes.row_at σ g c.1)) →
  ∃ σ', AppTypes.initializeGame content cc g σ = (Normal tt, σ')
    ∧ ∀ c, c ∈ cc →
        ∃ cell, AppTypes.cellAt c g σ' = Normal (Some cell)
          ∧ AppTypes.Possibilities cell = p
          ∧ AppTypes.isFixed cell = true.
Proof.
  intros Hp Hlen.
  set (good := λ (τ : AppTypes.Store) (c : CellCoordinate),
         ∃ cell, AppTypes.cellAt c g τ = Normal (Some cell)
           ∧ AppTypes.Possibilities cell = p
           ∧ AppTypes.isFixed cell = true).
  assert (Hrun : ∀ τ,
            (∀ c, c ∈ cc → is_Some (AppTypes.row_at τ g c.1)) →
            ∃ τ', AppTypes.initializeGame content cc g τ = (Normal tt, τ')
              ∧ (∀ c, c ∈ cc → good τ' c)
              ∧ (∀ c, good τ c → good τ' c)
              ∧ (∀ r, is_Some (AppTypes.row_at τ g r) →
                      is_Some (AppTypes.row_at τ' g r))).
  { induction cc as [|c0 cc IH]; intros τ Hrows.
    - exists τ. split; [done|]. split; [|done].
      intros c Hc. by apply elem_of_nil in Hc.
    - destruct (Hrows c0) as [row Hrow]; [left|].
      unfold AppTypes.row_at in Hrow.
      destruct (arr_elems g !! c0.1) as [l|] eqn:Hg; [|done].
      destruct (AppTypes_placeNewCell_found content g c0 τ p l row
                  Hp Hlen Hg Hrow) as (τ1 & Hstep & Hheap).
      assert (Hread : ∀ c, AppTypes.cellAt c g τ1 =
                 if decide (arr_elems g !! c.1 = Some l ∧ c.2 = c0.2)
                 then Normal (Some (AppTypes.mkCell p true c0))
                 else AppTypes.cellAt c g τ).
      { intros c. by apply (AppTypes_cellAt_after_write c g τ τ1 l row). }
      assert (Hkeep : ∀ c, good τ c → good τ1 c).
      { intros c Hc. unfold good. rewrite Hread.
        destruct (decide _); [by eexists|done]. }
      assert (Hrows1 : ∀ r, is_Some (AppTypes.row_at τ g r) →
                            is_Some (AppTypes.row_at τ1 g r)).
      { intros r. unfold AppTypes.row_at. rewrite Hheap.
        destruct (arr_elems g !! r) as [l'|]; [|done].
        destruct (decide (l = l')) as [<-|Hne].
        - by rewrite lookup_insert_eq.
        - by rewrite lookup_insert_ne. }
      destruct (IH τ1) as (τ' & Hrest & Hgood & Hkeep' & Hrows').
      { intros c Hc. apply Hrows1, Hrows. by right. }
      exists τ'. simpl. rewrite Hstep. split; [done|].
      split; [|split].
      + intros c Hc. apply elem_of_cons in Hc as [->|Hc]; [|by apply Hgood].
        apply Hkeep'. unfold good. rewrite Hread, decide_True by done.
        by eexists.
      + intros c Hc. by apply Hkeep', Hkeep.
      + intros r Hr. by apply Hrows', Hrows1. }
  intros Hrows. destruct (Hrun σ Hrows) as (σ' & Hres & Hgood & _).
  by exists σ'.
Qed.

Lemma AppTypes_initializeGame_places_witness :
  let σ := AppTypes.mkStore {[ 1%positive := mkArray 0 ∅ ]} [] in
  AppTypes.Array_of (CStr "T") = Normal (arr_of_list [CStr "T"])
  ∧ arr_length (arr_of_list [CStr "T"]) = 1
  ∧ ∃ σ', AppTypes.initializeGame (CStr "T") [(0, 1); (0, 2)] field_1x1 σ
          = (Normal tt, σ')
      ∧ ∀ c, c ∈ [(0, 1); (0, 2)] →
          ∃ cell, AppTypes.cellAt c field_1x1 σ' = Normal (Some cell)
            ∧ AppTypes.Possibilities cell = arr_of_list [CStr "T"]
            ∧ AppTypes.isFixed cell = true.
Proof.
  intros σ. split; [reflexivity|]. split; [reflexivity|].
  apply (AppTypes_initializeGame_places (CStr "T") [(0, 1); (0, 2)] field_1x1
           σ (arr_of_list [CStr "T"])).
  - reflexivity.
  - reflexivity.
  - intros c Hc. apply elem_of_cons in Hc as [->|Hc]; [by eexists|].
    apply elem_of_cons in Hc as [->|Hc]; [by eexists|].
    by apply elem_of_nil in Hc.
Defined.

(** *** The field that [initializeGame] returns *)

(** X26.  Whenever [initializeGame] returns a field, no other helper can use
    it: [cellAt] and [setCellAt] raise [TypeError] at every coordinate, and
    [isCoordinateCollectionAllFound] raises [TypeError] on every collection
    that is not empty. *)
Theorem initializeGame_field_unusable (content : list Cell)
    (settings : GameSettings) σ (g : GameField) σ' :
  initializeGame content settings σ = (Normal g, σ') →
  (∀ c v, cellAt c g σ' = (Throw TypeError, σ')
          ∧ setCellAt c g v σ' = (Throw TypeError, σ'))
  ∧ (∀ cc, cc ≠ [] →
       isCoordinateCollectionAllFound cc g σ' = (Throw TypeError, σ')).
Proof.
  intros Hinit.
  assert (Hg : arr_elems g = ∅).
  { destruct (decide (0 ≤ MAXROW settings < two32)) as [Hrow|Hrow].
    - rewrite (initializeGame_valid _ _ _ Hrow) in Hinit.
      destruct (existsb cellIsFound content); [done|].
      by injection Hinit as <- _.
    - by rewrite (initializeGame_RangeError _ _ _ Hrow) in Hinit. }
  split.
  - intros c v. split.
    + apply cellAt_no_row. by rewrite Hg.
    + apply setCellAt_no_row. by rewrite Hg.
  - intros [|c cc] Hcc; [done|].
    rewrite allFound_unfold, found_flags_missing; [done|].
    exists c. split; [left|]. unfold stored_cell, row_at. by rewrite Hg.
Qed.

Lemma initializeGame_field_unusable_witness :
  initializeGame [open_cell (0, 0)] binarioGameSettings empty_store
  = (Normal (mkArray 12 ∅),
     mkStore ∅ [LogPlacingCell (open_cell (0, 0)); ErrorSeveralPossibilities])
  ∧ (∀ c v,
       cellAt c (mkArray 12 ∅)
         (mkStore ∅ [LogPlacingCell (open_cell (0, 0)); ErrorSeveralPossibilities])
       = (Throw TypeError,
          mkStore ∅ [LogPlacingCell (open_cell (0, 0)); ErrorSeveralPossibilities])
       ∧ setCellAt c (mkArray 12 ∅) v
           (mkStore ∅ [LogPlacingCell (open_cell (0, 0)); ErrorSeveralPossibilities])
         = (Throw TypeError,
            mkStore ∅ [LogPlacingCell (open_cell (0, 0)); ErrorSeveralPossibilities]))
  ∧ (∀ cc, cc ≠ [] →
       isCoordinateCollectionAllFound cc (mkArray 12 ∅)
         (mkStore ∅ [LogPlacingCell (open_cell (0, 0)); ErrorSeveralPossibilities])
       = (Throw TypeError,
          mkStore ∅ [LogPlacingCell (open_cell (0, 0)); ErrorSeveralPossibilities])).
Proof.
  split; [by vm_compute|].
  apply (initializeGame_field_unusable [open_cell (0, 0)] binarioGameSettings
           empty_store).
  by vm_compute.
Defined.

(** X27.  The callback that [initializeGame] passes to the outer [map] would
    not create a cell either: called for any row, with a legal [MAXCOL], it
    maps [new Array(MAXCOL)], which has no element, and so returns a new
    row array of [MAXCOL] holes, stored at a reference that was not in
    use. *)
Theorem initRow_builds_row_of_holes (settings : GameSettings) (colIndex : Z) σ :
  0 ≤ MAXCOL settings < two32 →
  ∃ l, initRow settings tt colIndex σ
       = (Normal l,
          mkStore (<[l:=mkArray (MAXCOL settings) ∅]> (heap σ)) (console σ))
    ∧ heap σ !! l = None.
Proof.
  intros Hcol. exists (fresh (dom (heap σ))). split.
  - unfold initRow, js_lift. unfold js_bind at 1.
    rewrite (new_Array_valid _ Hcol).
    unfold js_bind at 1. by rewrite arr_map_holes.
  - apply not_elem_of_dom, is_fresh.
Qed.

Lemma initRow_builds_row_of_holes_witness :
  0 ≤ MAXCOL binarioGameSettings < two32
  ∧ ∃ l, initRow binarioGameSettings tt 0 store_1x1
         = (Normal l,
            mkStore (<[l:=mkArray (MAXCOL binarioGameSettings) ∅]> (heap store_1x1))
              (console store_1x1))
      ∧ heap store_1x1 !! l = None.
Proof.
  split; [by vm_compute|].
  apply (initRow_builds_row_of_holes binarioGameSettings 0 store_1x1).
  by vm_compute.
Defined.
